(** * bodylabs/rigger: joint placement, skeleton construction and skin binding

    A shallow embedding of [bodylabs_rigger/joint_positions.py] and of the
    rig-construction methods of [bodylabs_rigger/factory.py].

    Conventions of the model.
    - Coordinates, weights and matrix entries are exact rationals ([Qc]);
      the numpy/FBX doubles of the program are idealised, so every equation
      below is an equation of exact arithmetic.
    - A Python [dict] keyed by joint name is a [gmap string _].
    - An FBX affine matrix ([FbxAMatrix]) is a linear 3x3 part and a
      translation, multiplied in the column-vector convention of the SDK
      (global = parent_global * local).
    - The FBX scene is a list of nodes in creation order; a node handle is
      its index.  Output written with [print] is a list of lines. *)

From Stdlib Require Import QArith Qcanon Field.
From stdpp Require Import base numbers option list strings gmap fin_maps.

Local Open Scope Qc_scope.

(** ** Scalars *)

Definition Qc3 : Qc := 1 + 1 + 1.
Definition Qchalf : Qc := / (1 + 1).

Definition Qcmin (x y : Qc) : Qc := if Qle_bool x y then x else y.
Definition Qcmax (x y : Qc) : Qc := if Qle_bool x y then y else x.

(** ** Three-vectors (a row of the vertex array, a joint position) *)

Record vec3 : Type := Vec3 { vx : Qc; vy : Qc; vz : Qc }.

Definition vzero : vec3 := Vec3 0 0 0.
Definition vadd (a b : vec3) : vec3 := Vec3 (vx a + vx b) (vy a + vy b) (vz a + vz b).
Definition vsub (a b : vec3) : vec3 := Vec3 (vx a - vx b) (vy a - vy b) (vz a - vz b).
(** numpy's [*] on two arrays: the componentwise product. *)
Definition vmul (a b : vec3) : vec3 := Vec3 (vx a * vx b) (vy a * vy b) (vz a * vz b).
(** numpy's [/] by a scalar. *)
Definition vdiv (a : vec3) (k : Qc) : vec3 := Vec3 (vx a / k) (vy a / k) (vz a / k).
Definition vmin (a b : vec3) : vec3 := Vec3 (Qcmin (vx a) (vx b)) (Qcmin (vy a) (vy b)) (Qcmin (vz a) (vz b)).
Definition vmax (a b : vec3) : vec3 := Vec3 (Qcmax (vx a) (vx b)) (Qcmax (vy a) (vy b)) (Qcmax (vz a) (vz b)).

(** Componentwise order, used to speak about bounding boxes. *)
Definition vle (a b : vec3) : Prop := vx a ≤ vx b ∧ vy a ≤ vy b ∧ vz a ≤ vz b.

Module JointPositions.

(** *** [calculate_joint_position] *)

(** [vertices[i, :]] with numpy's index rule: [-V <= i < V], a negative
    index counts from the end, anything else raises [IndexError]. *)
Definition np_row (vertices : list vec3) (i : Z) : option vec3 :=
  if bool_decide (0 ≤ i)%Z then vertices !! Z.to_nat i
  else if bool_decide (- Z.of_nat (length vertices) ≤ i)%Z
       then vertices !! Z.to_nat (Z.of_nat (length vertices) + i)
       else None.

(** [vertices[reference_vertices, :].reshape(-1, 3)]: the rows in the order
    of the index list, repetitions kept; [None] is [IndexError]. *)
Definition np_take_rows (vertices : list vec3) (reference_vertices : list Z)
  : option (list vec3) :=
  mapM (np_row vertices) reference_vertices.

(** [np.min(a, axis=0)] and [np.max(a, axis=0)]; they raise on no rows. *)
Definition np_min_axis0 (a : list vec3) : option vec3 :=
  match a with
  | [] => None
  | p :: a' => Some (foldl vmin p a')
  end.

Definition np_max_axis0 (a : list vec3) : option vec3 :=
  match a with
  | [] => None
  | p :: a' => Some (foldl vmax p a')
  end.

(** The default of the keyword argument [relative_position]. *)
Definition default_relative_position : vec3 := Vec3 Qchalf Qchalf Qchalf.

(** The two extrema points [v1], [v2]: the [if]/[else] of the source.
    [joint_vertices[-1, :]] is the last row. *)
Definition extrema (joint_vertices : list vec3) : option (vec3 * vec3) :=
  if bool_decide (2 < length joint_vertices)%nat
  then match np_min_axis0 joint_vertices, np_max_axis0 joint_vertices with
       | Some v1, Some v2 => Some (v1, v2)
       | _, _ => None
       end
  else match joint_vertices !! 0%nat, last joint_vertices with
       | Some v1, Some v2 => Some (v1, v2)
       | _, _ => None
       end.

Definition calculate_joint_position (vertices : list vec3)
    (reference_vertices : list Z) (relative_position : vec3) : option vec3 :=
  joint_vertices ← np_take_rows vertices reference_vertices;
  e ← extrema joint_vertices;
  Some (vadd e.1 (vmul (vsub e.2 e.1) relative_position)).

(** *** [calculate_joint_positions] *)

(** One entry of the joint position spec; [relative_position] may be left
    out of the dict, the keyword default then applies. *)
Record joint_spec : Type := JointSpec {
  reference_vertices : list Z;
  relative_position : option vec3
}.

Definition calculate_joint_position_kw (vertices : list vec3) (js : joint_spec)
  : option vec3 :=
  calculate_joint_position vertices (reference_vertices js)
    (default default_relative_position (relative_position js)).

(** The body of the [try] block works on the dict and may raise
    [KeyError key]: a state monad over the dict with an exception. *)
Definition Try (A : Type) : Type :=
  gmap string vec3 → gmap string vec3 * (string + A).

Definition try_ret {A} (a : A) : Try A := λ m, (m, inr a).
Definition try_bind {A B} (c : Try A) (k : A → Try B) : Try B :=
  λ m, match c m with
       | (m', inl key) => (m', inl key)
       | (m', inr a) => k a m'
       end.
Definition getitem (key : string) : Try vec3 :=
  λ m, (m, match m !! key with Some v => inr v | None => inl key end).
Definition setitem (key : string) (v : vec3) : Try unit :=
  λ m, (<[key := v]> m, inr tt).

#[local] Instance try_mret : MRet Try := @try_ret.
#[local] Instance try_mbind : MBind Try := λ A B k c, try_bind c k.

Definition shoulder_block : Try unit :=
  neck_pos ← getitem "Neck";
  left_arm_pos ← getitem "LeftArm";
  _ ← setitem "LeftShoulder"
        (vadd neck_pos (vdiv (vsub left_arm_pos neck_pos) Qc3));
  right_arm_pos ← getitem "RightArm";
  setitem "RightShoulder"
        (vadd neck_pos (vdiv (vsub right_arm_pos neck_pos) Qc3)).

(** [str(KeyError(key))] is the key in single quotes, and the format string
    adds its own pair. *)
Definition unrecognized_joint_name (key : string) : string :=
  "Unrecognized joint name: ''" +:+ key +:+ "''".

(** The special case for the shoulders: the [try] ... [except KeyError]
    statement.  Returns the dict and the lines printed. *)
Definition shoulder_step (joint_location_map : gmap string vec3)
  : gmap string vec3 * list string :=
  match shoulder_block joint_location_map with
  | (m, inl key) => (m, [unrecognized_joint_name key])
  | (m, inr _) => (m, [])
  end.

(** The loop over the spec: every joint by the generic rule.  An exception
    of [calculate_joint_position] for any joint ends the call ([None]). *)
Definition generic_positions (vertices : list vec3)
    (joint_position_spec : gmap string joint_spec) : option (gmap string vec3) :=
  let r := calculate_joint_position_kw vertices <$> joint_position_spec in
  if bool_decide (map_Forall (λ _ o, is_Some o) r) then Some (omap id r) else None.

Definition calculate_joint_positions (vertices : list vec3)
    (joint_position_spec : gmap string joint_spec)
  : option (gmap string vec3 * list string) :=
  joint_location_map ← generic_positions vertices joint_position_spec;
  Some (shoulder_step joint_location_map).

End JointPositions.

(** ** The FBX SDK objects the factory works with *)

Module Fbx.

Record mat3 : Type := Mat3 {
  m00 : Qc; m01 : Qc; m02 : Qc;
  m10 : Qc; m11 : Qc; m12 : Qc;
  m20 : Qc; m21 : Qc; m22 : Qc
}.

Definition mat3_id : mat3 := Mat3 1 0 0  0 1 0  0 0 1.

Definition mat3_mul (a b : mat3) : mat3 :=
  Mat3 (m00 a * m00 b + m01 a * m10 b + m02 a * m20 b)
       (m00 a * m01 b + m01 a * m11 b + m02 a * m21 b)
       (m00 a * m02 b + m01 a * m12 b + m02 a * m22 b)
       (m10 a * m00 b + m11 a * m10 b + m12 a * m20 b)
       (m10 a * m01 b + m11 a * m11 b + m12 a * m21 b)
       (m10 a * m02 b + m11 a * m12 b + m12 a * m22 b)
       (m20 a * m00 b + m21 a * m10 b + m22 a * m20 b)
       (m20 a * m01 b + m21 a * m11 b + m22 a * m21 b)
       (m20 a * m02 b + m21 a * m12 b + m22 a * m22 b).

Definition mat3_vec (a : mat3) (v : vec3) : vec3 :=
  Vec3 (m00 a * vx v + m01 a * vy v + m02 a * vz v)
       (m10 a * vx v + m11 a * vy v + m12 a * vz v)
       (m20 a * vx v + m21 a * vy v + m22 a * vz v).

Definition mat3_det (a : mat3) : Qc :=
  m00 a * (m11 a * m22 a - m12 a * m21 a)
  - m01 a * (m10 a * m22 a - m12 a * m20 a)
  + m02 a * (m10 a * m21 a - m11 a * m20 a).

(** Inverse by the adjugate; on a singular matrix the entries are junk
    (division by zero is zero in [Qc]), as the SDK gives no guarantee. *)
Definition mat3_inv (a : mat3) : mat3 :=
  let d := mat3_det a in
  Mat3 ((m11 a * m22 a - m12 a * m21 a) / d)
       ((m02 a * m21 a - m01 a * m22 a) / d)
       ((m01 a * m12 a - m02 a * m11 a) / d)
       ((m12 a * m20 a - m10 a * m22 a) / d)
       ((m00 a * m22 a - m02 a * m20 a) / d)
       ((m02 a * m10 a - m00 a * m12 a) / d)
       ((m10 a * m21 a - m11 a * m20 a) / d)
       ((m01 a * m20 a - m00 a * m21 a) / d)
       ((m00 a * m11 a - m01 a * m10 a) / d).

(** [FbxAMatrix]: an affine transform [x |-> lin x + trans]. *)
Record FbxAMatrix : Type := AMatrix { lin : mat3; trans : vec3 }.

(** A fresh [FbxAMatrix()] after [SetIdentity()]. *)
Definition amatrix_identity : FbxAMatrix := AMatrix mat3_id vzero.
Definition SetT (m : FbxAMatrix) (t : vec3) : FbxAMatrix := AMatrix (lin m) t.
Definition GetT (m : FbxAMatrix) : vec3 := trans m.

(** [a * b]: first [b], then [a]. *)
Definition amul (a b : FbxAMatrix) : FbxAMatrix :=
  AMatrix (mat3_mul (lin a) (lin b)) (vadd (mat3_vec (lin a) (trans b)) (trans a)).

Definition Inverse (a : FbxAMatrix) : FbxAMatrix :=
  let li := mat3_inv (lin a) in
  AMatrix li (vsub vzero (mat3_vec li (trans a))).

Infix "*m" := amul (at level 40, left associativity).

(** A cluster of a skin: the link node, the link mode, the control point
    influences in the order they were added, and the link matrix. *)
Inductive ELinkMode : Type := eNormalize | eAdditive | eTotalOne.

Record FbxCluster : Type := Cluster {
  cluster_link : nat;
  cluster_link_mode : ELinkMode;
  cluster_control_points : list (Z * Qc);
  cluster_transform_link : FbxAMatrix
}.

(** [FbxSkin]: its clusters in the order of [AddCluster]. *)
Definition FbxSkin : Type := list FbxCluster.

(** [FbxMesh]: the control points and the deformers.  Polygons, normals
    and the UV layer play no part in what is proved and are left out. *)
Record FbxMesh : Type := Mesh {
  mesh_control_points : list vec3;
  mesh_deformers : list FbxSkin
}.

Inductive FbxNodeAttribute : Type :=
  | AttrSkeleton_eLimbNode
  | AttrMesh (mesh : FbxMesh).

(** [FbxNode].  [LclLinear] stands for the matrix of the node's
    [LclRotation] and [LclScaling]; a new node has the identity. *)
Record FbxNode : Type := Node {
  node_name : string;
  node_parent : option nat;
  LclTranslation : vec3;
  LclLinear : mat3;
  node_attribute : option FbxNodeAttribute
}.

(** [FbxPose]: the (node, matrix) entries in the order of [Add]. *)
Record FbxPose : Type := Pose {
  pose_is_bind_pose : bool;
  pose_entries : list (nat * FbxAMatrix)
}.

(** The scene together with the lines printed so far. *)
Record world : Type := World {
  nodes : list FbxNode;
  poses : list FbxPose;
  stdout : list string
}.

Definition print (line : string) (w : world) : world :=
  World (nodes w) (poses w) (stdout w ++ [line]).

Definition set_nodes (ns : list FbxNode) (w : world) : world :=
  World ns (poses w) (stdout w).

(** [FbxScene.Create]: a scene with its root node only. *)
Definition FbxScene_Create (out : list string) : world :=
  World [Node "RootNode" None vzero mat3_id None] [] out.
Definition GetRootNode : nat := 0%nat.

(** [FbxNode.Create(scene, name)]: a new node, not yet attached. *)
Definition FbxNode_Create (name : string) (w : world) : nat * world :=
  (length (nodes w), set_nodes (nodes w ++ [Node name None vzero mat3_id None]) w).

Definition SetNodeAttribute (h : nat) (a : FbxNodeAttribute) (w : world) : world :=
  set_nodes (alter (λ n, Node (node_name n) (node_parent n) (LclTranslation n)
                              (LclLinear n) (Some a)) h (nodes w)) w.

Definition AddChild (parent child : nat) (w : world) : world :=
  set_nodes (alter (λ n, Node (node_name n) (Some parent) (LclTranslation n)
                              (LclLinear n) (node_attribute n)) child (nodes w)) w.

(** [node.LclTranslation.Set(...)]. *)
Definition LclTranslation_Set (h : nat) (t : vec3) (w : world) : world :=
  set_nodes (alter (λ n, Node (node_name n) (node_parent n) t
                              (LclLinear n) (node_attribute n)) h (nodes w)) w.

(** The local transform of a node: translation, then rotation and scale. *)
Definition local_transform (n : FbxNode) : FbxAMatrix :=
  AMatrix (LclLinear n) (LclTranslation n).

(** [node.EvaluateGlobalTransform()]: the product of the local transforms
    down the parent chain.  The recursion follows parent handles, so it is
    bounded by the number of nodes of the scene. *)
Fixpoint eval_global (fuel : nat) (ns : list FbxNode) (h : nat) : option FbxAMatrix :=
  match fuel with
  | O => None
  | S fuel' =>
      match ns !! h with
      | None => None
      | Some n =>
          match node_parent n with
          | None => Some (local_transform n)
          | Some p =>
              match eval_global fuel' ns p with
              | None => None
              | Some pg => Some (pg *m local_transform n)
              end
          end
      end
  end.

Definition EvaluateGlobalTransform (w : world) (h : nat) : option FbxAMatrix :=
  eval_global (length (nodes w)) (nodes w) h.

End Fbx.

(** ** Static rig assets ([rig_assets.py]) *)

#[warnings="-register-all"]
Inductive JointTree : Type :=
  | mkJointTree (name : string) (children : list JointTree).

Definition joint_name (t : JointTree) : string :=
  match t with mkJointTree name _ => name end.
Definition joint_children (t : JointTree) : list JointTree :=
  match t with mkJointTree _ children => children end.

Record ControlPointCluster : Type := mkControlPointCluster {
  indices : list Z;
  weights : list Qc
}.

(** ** [RiggedModelFactory] *)

Module Factory.
Import Fbx.

(** [_set_mesh], as far as the mesh node and its control points go. *)
Definition set_mesh (v : list vec3) (w : world) : nat * world :=
  let '(fbx_mesh_node, w) := FbxNode_Create "BodyLabs_body" w in
  let w := AddChild GetRootNode fbx_mesh_node w in
  let w := SetNodeAttribute fbx_mesh_node (AttrMesh (Mesh v [])) w in
  (fbx_mesh_node, w).

(** [_set_node_translation].  [None] is the [AttributeError] of a node
    without parent (or a handle that is not in the scene). *)
Definition set_node_translation (location : vec3) (fbx_node : nat) (w : world)
  : option world :=
  let global_pos_mat := SetT amatrix_identity location in
  current_global_pos_mat ← EvaluateGlobalTransform w fbx_node;
  n ← nodes w !! fbx_node;
  parent ← node_parent n;
  parent_global_pos_mat ← EvaluateGlobalTransform w parent;
  let current_local_translation := SetT amatrix_identity (LclTranslation n) in
  let new_local_translation :=
    Inverse parent_global_pos_mat *m
    global_pos_mat *m
    Inverse current_global_pos_mat *m
    parent_global_pos_mat *m
    current_local_translation in
  Some (LclTranslation_Set fbx_node (GetT new_local_translation) w).

Definition position_missing (node_name : string) : string :=
  "Position information missing for '" +:+ node_name +:+ "'".

(** The part of [_extend_skeleton] before the loop over the children:
    the new bone node, attached to its parent and placed. *)
Definition add_bone (parent_fbx_node : nat) (node_name : string)
    (target_fbx_node_positions : gmap string vec3) (w : world)
  : option (nat * world) :=
  let '(node, w) := FbxNode_Create node_name w in
  let w := SetNodeAttribute node AttrSkeleton_eLimbNode w in
  let w := AddChild parent_fbx_node node w in
  match target_fbx_node_positions !! node_name with
  | Some node_position =>
      w' ← set_node_translation node_position node w; Some (node, w')
  | None => Some (node, print (position_missing node_name) w)
  end.

(** The loop of [_extend_skeleton] over the children, [extend] being the
    recursive call with the new node as parent; [dict.update] lets the
    entries of the child win. *)
Definition extend_children
    (extend : JointTree → world → option (gmap string nat * world))
  : list JointTree → gmap string nat → world → option (gmap string nat * world) :=
  fix loop cs fbx_node_map w :=
    match cs with
    | [] => Some (fbx_node_map, w)
    | child :: cs' =>
        match extend child w with
        | None => None
        | Some (child_map, w') => loop cs' (child_map ∪ fbx_node_map) w'
        end
    end.

(** [_extend_skeleton]. *)
Fixpoint extend_skeleton (parent_fbx_node : nat) (reference_joint_tree : JointTree)
    (target_fbx_node_positions : gmap string vec3) (w : world)
  : option (gmap string nat * world) :=
  match reference_joint_tree with
  | mkJointTree node_name children =>
      match add_bone parent_fbx_node node_name target_fbx_node_positions w with
      | None => None
      | Some (node, w) =>
          extend_children
            (λ child w, extend_skeleton node child target_fbx_node_positions w)
            children (<[node_name := node]> ∅) w
      end
  end.

(** The loop of [_add_skin_and_bind_pose] over [fbx_node_map.iteritems()],
    on the skin and the bind pose under construction. *)
Fixpoint bind_joints (clusters : gmap string ControlPointCluster) (w : world)
    (items : list (string * nat)) (skin : FbxSkin) (bind_pose : list (nat * FbxAMatrix))
  : option (FbxSkin * list (nat * FbxAMatrix)) :=
  match items with
  | [] => Some (skin, bind_pose)
  | (node_name, node) :: items' =>
      match clusters !! node_name with
      | None => bind_joints clusters w items' skin bind_pose
      | Some cluster_info =>
          match EvaluateGlobalTransform w node with
          | None => None
          | Some transform =>
              let cluster :=
                Cluster node eNormalize
                  (zip (indices cluster_info) (weights cluster_info)) transform in
              bind_joints clusters w items' (skin ++ [cluster])
                          (bind_pose ++ [(node, transform)])
          end
      end
  end.

(** [mesh.AddDeformer(skin)] on the mesh of a node; [None] when the node
    carries no mesh. *)
Definition AddDeformer (fbx_mesh_node : nat) (skin : FbxSkin) (w : world) : option world :=
  n ← nodes w !! fbx_mesh_node;
  match node_attribute n with
  | Some (AttrMesh mesh) =>
      Some (SetNodeAttribute fbx_mesh_node
              (AttrMesh (Mesh (mesh_control_points mesh) (mesh_deformers mesh ++ [skin]))) w)
  | _ => None
  end.

Definition AddPose (p : FbxPose) (w : world) : world :=
  World (nodes w) (poses w ++ [p]) (stdout w).

Definition add_skin_and_bind_pose (clusters : gmap string ControlPointCluster)
    (fbx_node_map : gmap string nat) (fbx_mesh_node : nat) (w : world) : option world :=
  mesh_transform ← EvaluateGlobalTransform w fbx_mesh_node;
  '(skin, bind_pose) ← bind_joints clusters w (map_to_list fbx_node_map) []
                         [(fbx_mesh_node, mesh_transform)];
  w ← AddDeformer fbx_mesh_node skin w;
  Some (AddPose (Pose true bind_pose) w).

(** The factory's static data, and [construct_rig]. *)
Record RiggedModelFactory : Type := mkFactory {
  _joint_tree : JointTree;
  _joint_position_spec : gmap string JointPositions.joint_spec;
  _clusters : gmap string ControlPointCluster
}.

Definition construct_rig (self : RiggedModelFactory) (vertices : list vec3)
    (out : list string) : option world :=
  let fbx_scene := FbxScene_Create out in
  let '(fbx_mesh_node, fbx_scene) := set_mesh vertices fbx_scene in
  '(target_joint_positions, lines) ←
     JointPositions.calculate_joint_positions vertices (_joint_position_spec self);
  let fbx_scene := World (nodes fbx_scene) (poses fbx_scene) (stdout fbx_scene ++ lines) in
  '(fbx_node_map, fbx_scene) ←
     extend_skeleton GetRootNode (_joint_tree self) target_joint_positions fbx_scene;
  add_skin_and_bind_pose (_clusters self) fbx_node_map fbx_mesh_node fbx_scene.

End Factory.

(** ** [rig_assets.py]: the assets as JSON values *)

Module RigAssetsJson.

(** The Python values [json.load] produces and [json.dump] accepts: numbers,
    strings, lists, and dicts with string keys (an association list with
    distinct keys). *)
#[warnings="-register-all"]
Inductive pyval : Type :=
  | PyInt (z : Z)
  | PyFloat (q : Qc)
  | PyStr (s : string)
  | PyList (l : list pyval)
  | PyDict (d : list (string * pyval)).

(** [d[key]]; [None] is [KeyError]. *)
Fixpoint py_getitem (key : string) (d : list (string * pyval)) : option pyval :=
  match d with
  | [] => None
  | (k, v) :: d' => if String.eqb k key then Some v else py_getitem key d'
  end.

(** The values the typed records of the model can hold in a field; anything
    else is outside the model and gives [None]. *)
Definition py_str (v : pyval) : option string :=
  match v with PyStr s => Some s | _ => None end.
Definition py_int (v : pyval) : option Z :=
  match v with PyInt z => Some z | _ => None end.
(** A number read as a float: [json.load] gives an [int] for [1] and a
    [float] for [1.0]. *)
Definition py_number (v : pyval) : option Qc :=
  match v with
  | PyFloat q => Some q
  | PyInt z => Some (Q2Qc (inject_Z z))
  | _ => None
  end.
Definition py_list (v : pyval) : option (list pyval) :=
  match v with PyList l => Some l | _ => None end.
Definition py_dict (v : pyval) : option (list (string * pyval)) :=
  match v with PyDict d => Some d | _ => None end.
(** [f(d[key])]. *)
Definition py_getitem_with {A} (f : pyval → option A) (key : string)
    (d : list (string * pyval)) : option A :=
  match py_getitem key d with Some v => f v | None => None end.

(** A list of integers, a list of numbers. *)
Definition py_ints (v : pyval) : option (list Z) :=
  match py_list v with Some l => mapM py_int l | None => None end.
Definition py_numbers (v : pyval) : option (list Qc) :=
  match py_list v with Some l => mapM py_number l | None => None end.

(** *** [JointTree] *)

Fixpoint JointTree_to_json (t : JointTree) : pyval :=
  match t with
  | mkJointTree name children =>
      PyDict [("name", PyStr name);
              ("children", PyList (map JointTree_to_json children))]
  end.

(** What [for c in v] yields: the elements of a list; nothing for an empty
    string or an empty dict; the characters or keys otherwise, on which
    [from_json] then raises (they are strings); a number is not iterable. *)
Definition py_iter_dicts (v : pyval) : option (list pyval) :=
  match v with
  | PyList l => Some l
  | PyStr s => if String.eqb s "" then Some [] else None
  | PyDict d => match d with [] => Some [] | _ => None end
  | _ => None
  end.

(** [JointTree.from_json]: [cls(o['name'], [cls.from_json(c) for c in
    o['children']])].  The recursion goes through the value stored under
    'children'; it is written as a walk over the dict so that it is
    structural ([JointTree_from_json_eq] below gives it in the form of the
    source).  Keys other than the two are ignored, as in the source; a name
    that is not a string is outside the model ([JointTree] holds a string). *)
Fixpoint JointTree_from_json (o : pyval) : option JointTree :=
  match o with
  | PyDict d =>
      match py_getitem "name" d with
      | Some (PyStr name) =>
          match
            (fix find (d : list (string * pyval)) : option (list JointTree) :=
               match d with
               | [] => None
               | (k, v) :: d' =>
                   if String.eqb k "children"
                   then match v with
                        | PyList cs =>
                            (fix each (cs : list pyval) : option (list JointTree) :=
                               match cs with
                               | [] => Some []
                               | c :: cs' =>
                                   match JointTree_from_json c, each cs' with
                                   | Some t, Some ts => Some (t :: ts)
                                   | _, _ => None
                                   end
                               end) cs
                        | PyStr s => if String.eqb s "" then Some [] else None
                        | PyDict [] => Some []
                        | _ => None
                        end
                   else find d'
               end) d
          with
          | Some children => Some (mkJointTree name children)
          | None => None
          end
      | _ => None
      end
  | _ => None
  end.

(** *** [ControlPointCluster] *)

(** [to_json] returns [self.__dict__]. *)
Definition ControlPointCluster_to_json (c : ControlPointCluster) : pyval :=
  PyDict [("indices", PyList (PyInt <$> indices c));
          ("weights", PyList (PyFloat <$> weights c))].

(** [from_json] passes the dict [o] as the keyword arguments of [__init__]:
    the keys of [o] must be exactly its two
    parameters of [__init__] (a missing or an unexpected keyword raises
    [TypeError]). *)
Definition ControlPointCluster_from_json (o : pyval) : option ControlPointCluster :=
  match py_dict o with
  | None => None
  | Some d =>
      if bool_decide (Forall (λ kv, kv.1 = "indices" ∨ kv.1 = "weights") d)
      then match py_getitem_with py_ints "indices" d,
                 py_getitem_with py_numbers "weights" d with
           | Some i, Some w => Some (mkControlPointCluster i w)
           | _, _ => None
           end
      else None
  end.

(** *** [TexturedMesh] *)

(** The three arrays, each as its list of rows. *)
Record TexturedMesh : Type := mkTexturedMesh {
  faces : list (list Z);
  uv_indices : list (list Z);
  uv_values : list (list Qc)
}.

(** [a.ravel().tolist()] of a two-dimensional array. *)
Definition ravel {A} (rows : list (list A)) : list A := concat rows.

Fixpoint chunks {A} (count ncols : nat) (flat : list A) : list (list A) :=
  match count with
  | O => []
  | S count' => take ncols flat :: chunks count' ncols (drop ncols flat)
  end.

(** [np.array(flat).reshape(-1, ncols)] for [ncols > 0]; [None] is the
    [ValueError] for a size that is not a multiple of [ncols]. *)
Definition reshape {A} (ncols : nat) (flat : list A) : option (list (list A)) :=
  if bool_decide (length flat `mod` ncols = 0)%nat
  then Some (chunks (length flat `div` ncols) ncols flat)
  else None.

(** [np.array(v).reshape(-1, ncols)] for a flat JSON list of numbers [v],
    which is what [to_json] writes; other values are outside the model. *)
Definition py_array {A} (ncols : nat) (decode : pyval → option (list A)) (v : pyval)
  : option (list (list A)) :=
  match decode v with Some flat => reshape ncols flat | None => None end.

Definition TexturedMesh_to_json (tm : TexturedMesh) : pyval :=
  PyDict [("faces", PyList (PyInt <$> ravel (faces tm)));
          ("uv_indices", PyList (PyInt <$> ravel (uv_indices tm)));
          ("uv_values", PyList (PyFloat <$> ravel (uv_values tm)))].

Definition TexturedMesh_from_json (o : pyval) : option TexturedMesh :=
  match py_dict o with
  | None => None
  | Some d =>
      match py_getitem_with (py_array 4 py_ints) "faces" d,
            py_getitem_with (py_array 4 py_ints) "uv_indices" d,
            py_getitem_with (py_array 2 py_numbers) "uv_values" d with
      | Some f, Some i, Some v => Some (mkTexturedMesh f i v)
      | _, _, _ => None
      end
  end.

(** *** [RigAssets] *)

(** The joint position spec is kept as the JSON value it is. *)
Record RigAssets : Type := mkRigAssets {
  textured_mesh : TexturedMesh;
  joint_tree : JointTree;
  joint_position_spec : pyval;
  clusters : gmap string ControlPointCluster
}.

Definition RigAssets_to_json (self : RigAssets) : pyval :=
  PyDict [("textured_mesh", TexturedMesh_to_json (textured_mesh self));
          ("joint_tree", JointTree_to_json (joint_tree self));
          ("joint_position_spec", joint_position_spec self);
          ("clusters",
           PyDict ((λ kv, (kv.1, ControlPointCluster_to_json kv.2))
                     <$> map_to_list (clusters self)))].

(** One item of [o['clusters'].iteritems()]. *)
Definition cluster_item_from_json (kv : string * pyval)
  : option (string * ControlPointCluster) :=
  match ControlPointCluster_from_json kv.2 with
  | Some c => Some (kv.1, c)
  | None => None
  end.

(** The dict comprehension over [o['clusters'].iteritems()]. *)
Definition clusters_from_json (v : pyval) : option (list (string * ControlPointCluster)) :=
  match py_dict v with Some items => mapM cluster_item_from_json items | None => None end.

Definition RigAssets_from_json (o : pyval) : option RigAssets :=
  match py_dict o with
  | None => None
  | Some d =>
      match py_getitem_with TexturedMesh_from_json "textured_mesh" d,
            py_getitem_with JointTree_from_json "joint_tree" d,
            py_getitem "joint_position_spec" d,
            py_getitem_with clusters_from_json "clusters" d with
      | Some tm, Some jt, Some spec, Some cs =>
          Some (mkRigAssets tm jt spec (list_to_map cs))
      | _, _, _, _ => None
      end
  end.

End RigAssetsJson.

(** ** Vocabulary of the statements *)

Import JointPositions Fbx Factory.

(** [v] is the componentwise minimum (maximum) of the rows [pts]: a lower
    (upper) bound of every row that is attained in each coordinate. *)
Definition componentwise_min (v : vec3) (pts : list vec3) : Prop :=
  (∀ p, p ∈ pts → vle v p) ∧
  (∃ p, p ∈ pts ∧ vx p = vx v) ∧ (∃ p, p ∈ pts ∧ vy p = vy v) ∧ (∃ p, p ∈ pts ∧ vz p = vz v).

Definition componentwise_max (v : vec3) (pts : list vec3) : Prop :=
  (∀ p, p ∈ pts → vle p v) ∧
  (∃ p, p ∈ pts ∧ vx p = vx v) ∧ (∃ p, p ∈ pts ∧ vy p = vy v) ∧ (∃ p, p ∈ pts ∧ vz p = vz v).

(** The point a third of the way from [neck] to [arm]. *)
Definition third_of_the_way (neck arm : vec3) : vec3 :=
  vadd neck (vdiv (vsub arm neck) Qc3).

(** An affine matrix is invertible when its linear part is. *)
Definition invertible (a : Fbx.FbxAMatrix) : Prop := Fbx.mat3_det (Fbx.lin a) ≠ 0.

(** The node list of a scene built by [Create] and [AddChild] on new nodes:
    a parent is older than its children. *)
Definition wf_nodes (ns : list Fbx.FbxNode) : Prop :=
  ∀ h n p, ns !! h = Some n → Fbx.node_parent n = Some p → (p < h)%nat.

(** Every node has an invertible rotation and scale. *)
Definition all_invertible (ns : list Fbx.FbxNode) : Prop :=
  ∀ h n, ns !! h = Some n → Fbx.mat3_det (Fbx.LclLinear n) ≠ 0.

(** The joint names of a tree in the order [_extend_skeleton] visits them. *)
Fixpoint preorder (t : JointTree) : list string :=
  match t with
  | mkJointTree name children => name :: concat (map preorder children)
  end.

(** The scene of [add_bone] just before the node is placed. *)
Definition bone_attached (parent_fbx_node : nat) (node_name : string) (w : Fbx.world)
  : Fbx.world :=
  Fbx.AddChild parent_fbx_node (length (Fbx.nodes w))
    (Fbx.SetNodeAttribute (length (Fbx.nodes w)) Fbx.AttrSkeleton_eLimbNode
       (Fbx.FbxNode_Create node_name w).2).

(** The new bone as [FbxNode.Create] and [AddChild] leave it. *)
Definition new_bone (parent : nat) (name : string) (t : vec3) : FbxNode :=
  Node name (Some parent) t mat3_id (Some AttrSkeleton_eLimbNode).

(** The lines [add_bone] prints for a joint. *)
Definition bone_lines (positions : gmap string vec3) (name : string) : list string :=
  match positions !! name with
  | None => [position_missing name]
  | Some _ => []
  end.

(** A bone as the skeleton builder leaves it: a skeleton node under some
    parent, not rotated or scaled, and at the origin of its parent when the
    joint has no target position. *)
Definition bone_ok (positions : gmap string vec3) (n : FbxNode) : Prop :=
  node_attribute n = Some AttrSkeleton_eLimbNode
  ∧ LclLinear n = mat3_id
  ∧ is_Some (node_parent n)
  ∧ (positions !! node_name n = None → LclTranslation n = vzero).

(** The name-to-node map points at nodes of that name. *)
Definition map_names_ok (m : gmap string nat) (w : world) : Prop :=
  ∀ name h, m !! name = Some h → node_name <$> nodes w !! h = Some name.

(** The effect of building the bones for the joints [names], from map [m0]
    and scene [w] to map [m] and scene [w']. *)
Definition extended (positions : gmap string vec3) (names : list string)
    (m0 : gmap string nat) (w : world) (m : gmap string nat) (w' : world) : Prop :=
  ∃ new,
    nodes w' = nodes w ++ new
    ∧ node_name <$> new = names
    ∧ Forall (bone_ok positions) new
    ∧ wf_nodes (nodes w')
    ∧ poses w' = poses w
    ∧ stdout w' = stdout w ++ (names ≫= bone_lines positions)
    ∧ (∀ name, is_Some (m !! name) ↔ is_Some (m0 !! name) ∨ name ∈ names)
    ∧ map_names_ok m w'.

(** The joints of the node map that have a cluster entry, in the order of
    the iteration, with their node and their cluster. *)
Definition bound_joints (clusters : gmap string ControlPointCluster)
    (items : list (string * nat)) : list (string * nat * ControlPointCluster) :=
  omap (λ item, match clusters !! item.1 with
                | Some cluster_info => Some (item.1, item.2, cluster_info)
                | None => None
                end) items.

(** The cluster the loop builds for a bound joint. *)
Definition cluster_of (b : string * nat * ControlPointCluster) (transform : FbxAMatrix)
  : FbxCluster :=
  Cluster b.1.2 eNormalize (zip (indices b.2) (weights b.2)) transform.

(** The deformers of the mesh carried by node [h]. *)
Definition mesh_deformers_at (w : world) (h : nat) : list FbxSkin :=
  match nodes w !! h with
  | Some n =>
      match node_attribute n with
      | Some (AttrMesh mesh) => mesh_deformers mesh
      | _ => []
      end
  | None => []
  end.

(** A small rig: the scene root, the mesh node, and two bones of which only
    'Root' has a cluster; the cluster's lists differ in length, and a
    cluster is given for a joint that is not in the skeleton. *)
Definition example_scene : world :=
  World [Node "RootNode" None vzero mat3_id None;
         Node "BodyLabs_body" (Some 0%nat) vzero mat3_id (Some (AttrMesh (Mesh [vzero] [])));
         Node "Root" (Some 0%nat) (Vec3 1 0 0) mat3_id (Some AttrSkeleton_eLimbNode);
         Node "Child" (Some 2%nat) (Vec3 0 1 0) mat3_id (Some AttrSkeleton_eLimbNode)]
        [] [].

Definition example_node_map : gmap string nat :=
  <["Root" := 2%nat]> (<["Child" := 3%nat]> ∅).

Definition example_clusters : gmap string ControlPointCluster :=
  <["Root" := mkControlPointCluster [0; 1; 2]%Z [1; 1]]>
    (<["Ghost" := mkControlPointCluster [0]%Z [1]]> ∅).

(** The end-to-end scenario: four vertices, the tree Root -> Child, 'Root'
    at vertex 0, 'Child' halfway between vertices 1 and 2, and one cluster
    per joint. *)
Definition example_vertices : list vec3 :=
  [vzero; Vec3 (1 + 1) 0 0; Vec3 0 (1 + 1 + 1 + 1) 0; Vec3 1 1 1].

Definition example_factory : RiggedModelFactory :=
  mkFactory
    (mkJointTree "Root" [mkJointTree "Child" []])
    (<["Root" := JointSpec [0%Z] None]> (<["Child" := JointSpec [1; 2]%Z None]> ∅))
    (<["Root" := mkControlPointCluster [0; 3]%Z [1; 1]]>
       (<["Child" := mkControlPointCluster [1; 2]%Z [1; 1]]> ∅)).

(** ** Vocabulary of the further properties *)

(** The indices numpy accepts for an array of [length vertices] rows. *)
Definition np_index_ok (vertices : list vec3) (i : Z) : Prop :=
  (- Z.of_nat (length vertices) ≤ i < Z.of_nat (length vertices))%Z.

(** The index from the front that a valid index stands for. *)
Definition np_index_from_front (vertices : list vec3) (i : Z) : Z :=
  if bool_decide (i < 0)%Z then (Z.of_nat (length vertices) + i)%Z else i.



(** The handles of the parents of the bones of a list of sibling subtrees,
    in creation order, [parents_of self next c] giving them for one subtree
    whose first bone gets handle [next] under the bone [self]. *)
Definition children_parents (parents_of : nat → JointTree → list nat)
  : list JointTree → nat → list nat :=
  fix go cs next :=
    match cs with
    | [] => []
    | c :: cs' => parents_of next c ++ go cs' (next + length (preorder c))%nat
    end.

(** The handles of the parents of the bones of tree [t], in creation order,
    when its root bone gets handle [self] under node [parent]: the root bone
    hangs under [parent], the root bone of a child under the bone of its
    parent joint. *)
Fixpoint bone_parents (parent self : nat) (t : JointTree) : list nat :=
  match t with
  | mkJointTree _ children =>
      parent :: children_parents (bone_parents self) children (S self)
  end.

(** The node map after entering the bones [(name, handle)] in creation
    order, a later entry replacing an earlier one of the same name. *)
Definition enter_bones (m0 : gmap string nat) (bones : list (string * nat))
  : gmap string nat :=
  foldl (λ acc b, <[b.1 := b.2]> acc) m0 bones.

(** A tree in which the name 'Hand' occurs twice, and target positions for
    some of its joints. *)
Definition example_tree : JointTree :=
  mkJointTree "Root" [mkJointTree "Hand" [mkJointTree "Tip" []]; mkJointTree "Hand" []].

Definition example_positions : gmap string vec3 :=
  <["Root" := Vec3 1 (1 + 1) Qc3]> (<["Tip" := Vec3 0 (- 1) Qc3]> ∅).

(** * Properties *)

(** ** Arithmetic of the scalars and vectors *)

Lemma vec3_eq (a b : vec3) : vx a = vx b → vy a = vy b → vz a = vz b → a = b.
Proof. destruct a, b; simpl; congruence. Qed.

Lemma Qcmin_le_l x y : Qcmin x y ≤ x.
Proof.
  unfold Qcmin. destruct (Qle_bool x y) eqn:E; [apply Qcle_refl|].
  apply Qclt_le_weak, Qcnot_le_lt. intros H. apply Qle_bool_iff in H. congruence.
Qed.

Lemma Qcmin_le_r x y : Qcmin x y ≤ y.
Proof.
  unfold Qcmin. destruct (Qle_bool x y) eqn:E; [by apply Qle_bool_iff in E|].
  apply Qcle_refl.
Qed.

Lemma Qcmax_ge_l x y : x ≤ Qcmax x y.
Proof.
  unfold Qcmax. destruct (Qle_bool x y) eqn:E; [by apply Qle_bool_iff in E|].
  apply Qcle_refl.
Qed.

Lemma Qcmax_ge_r x y : y ≤ Qcmax x y.
Proof.
  unfold Qcmax. destruct (Qle_bool x y) eqn:E; [apply Qcle_refl|].
  apply Qclt_le_weak, Qcnot_le_lt. intros H. apply Qle_bool_iff in H. congruence.
Qed.

Lemma Qcmin_cases x y : Qcmin x y = x ∨ Qcmin x y = y.
Proof. unfold Qcmin. destruct (Qle_bool x y); auto. Qed.

Lemma Qcmax_cases x y : Qcmax x y = x ∨ Qcmax x y = y.
Proof. unfold Qcmax. destruct (Qle_bool x y); auto. Qed.


Lemma vle_refl a : vle a a.
Proof. repeat split; apply Qcle_refl. Qed.

Lemma vle_trans a b c : vle a b → vle b c → vle a c.
Proof. intros (?&?&?) (?&?&?). repeat split; eapply Qcle_trans; eauto. Qed.

Lemma vmin_le_l a b : vle (vmin a b) a.
Proof. repeat split; apply Qcmin_le_l. Qed.
Lemma vmin_le_r a b : vle (vmin a b) b.
Proof. repeat split; apply Qcmin_le_r. Qed.
Lemma vmax_ge_l a b : vle a (vmax a b).
Proof. repeat split; apply Qcmax_ge_l. Qed.
Lemma vmax_ge_r a b : vle b (vmax a b).
Proof. repeat split; apply Qcmax_ge_r. Qed.



Lemma vblend_same a r : vadd a (vmul (vsub a a) r) = a.
Proof. apply vec3_eq; simpl; ring. Qed.


(** ** Landmark resolver: the generic rule *)

Lemma np_take_rows_length vertices refs pts :
  np_take_rows vertices refs = Some pts → length pts = length refs.
Proof. intros H. symmetry. by eapply length_mapM. Qed.

Lemma foldl_vmin_lower (l : list vec3) : ∀ p0 p, p ∈ p0 :: l → vle (foldl vmin p0 l) p.
Proof.
  induction l as [|x l IH]; intros p0 p Hp; simpl.
  - apply list_elem_of_singleton in Hp as ->. apply vle_refl.
  - apply elem_of_cons in Hp as [->|Hp].
    + eapply vle_trans; [apply IH; left | apply vmin_le_l].
    + apply elem_of_cons in Hp as [->|Hp].
      * eapply vle_trans; [apply IH; left | apply vmin_le_r].
      * apply IH. by right.
Qed.

Lemma foldl_vmax_upper (l : list vec3) : ∀ p0 p, p ∈ p0 :: l → vle p (foldl vmax p0 l).
Proof.
  induction l as [|x l IH]; intros p0 p Hp; simpl.
  - apply list_elem_of_singleton in Hp as ->. apply vle_refl.
  - apply elem_of_cons in Hp as [->|Hp].
    + eapply vle_trans; [apply vmax_ge_l | apply IH; left].
    + apply elem_of_cons in Hp as [->|Hp].
      * eapply vle_trans; [apply vmax_ge_r | apply IH; left].
      * apply IH. by right.
Qed.

(** Each coordinate of the fold is the coordinate of some row. *)
Lemma foldl_vmin_attained (c : vec3 → Qc) (l : list vec3) :
  (∀ a b, c (vmin a b) = Qcmin (c a) (c b)) →
  ∀ p0, ∃ p, p ∈ p0 :: l ∧ c p = c (foldl vmin p0 l).
Proof.
  intros Hc. induction l as [|x l IH]; intros p0; simpl.
  - exists p0. split; [left|done].
  - destruct (IH (vmin p0 x)) as (p & Hp & Heq).
    apply elem_of_cons in Hp as [->|Hp].
    + rewrite <-Heq, Hc. destruct (Qcmin_cases (c p0) (c x)) as [->| ->].
      * exists p0. split; [left|done].
      * exists x. split; [right; left|done].
    + exists p. split; [by do 2 right|done].
Qed.

Lemma foldl_vmax_attained (c : vec3 → Qc) (l : list vec3) :
  (∀ a b, c (vmax a b) = Qcmax (c a) (c b)) →
  ∀ p0, ∃ p, p ∈ p0 :: l ∧ c p = c (foldl vmax p0 l).
Proof.
  intros Hc. induction l as [|x l IH]; intros p0; simpl.
  - exists p0. split; [left|done].
  - destruct (IH (vmax p0 x)) as (p & Hp & Heq).
    apply elem_of_cons in Hp as [->|Hp].
    + rewrite <-Heq, Hc. destruct (Qcmax_cases (c p0) (c x)) as [->| ->].
      * exists p0. split; [left|done].
      * exists x. split; [right; left|done].
    + exists p. split; [by do 2 right|done].
Qed.

Lemma np_min_axis0_spec pts v : np_min_axis0 pts = Some v → componentwise_min v pts.
Proof.
  destruct pts as [|p0 l]; [done|]. intros [= <-]. split; [apply foldl_vmin_lower|].
  split_and!; by apply foldl_vmin_attained.
Qed.

Lemma np_max_axis0_spec pts v : np_max_axis0 pts = Some v → componentwise_max v pts.
Proof.
  destruct pts as [|p0 l]; [done|]. intros [= <-]. split; [apply foldl_vmax_upper|].
  split_and!; by apply foldl_vmax_attained.
Qed.

Lemma extrema_many pts :
  (2 < length pts)%nat →
  ∃ v1 v2, extrema pts = Some (v1, v2) ∧ componentwise_min v1 pts ∧ componentwise_max v2 pts.
Proof.
  intros Hlen. unfold extrema. rewrite bool_decide_eq_true_2 by done.
  destruct pts as [|p0 l]; [simpl in Hlen; lia|].
  eexists _, _. split; [done|].
  split; [by apply np_min_axis0_spec | by apply np_max_axis0_spec].
Qed.


Lemma extrema_one a : extrema [a] = Some (a, a).
Proof. done. Qed.



(** One reference vertex: both extrema are that row. *)
Lemma calculate_joint_position_single vertices (i : Z) rp :
  calculate_joint_position vertices [i] rp = np_row vertices i.
Proof.
  unfold calculate_joint_position, np_take_rows. simpl.
  destruct (np_row vertices i) as [v|]; [|done]. simpl.
  by rewrite vblend_same.
Qed.


(** ** Landmark resolver: the shoulders *)

Lemma shoulder_step_no_neck m :
  m !! "Neck" = None → shoulder_step m = (m, [unrecognized_joint_name "Neck"]).
Proof.
  intros H. unfold shoulder_step, shoulder_block, mbind, try_mbind, try_bind, getitem.
  by rewrite H.
Qed.

Lemma shoulder_step_no_left_arm m neck :
  m !! "Neck" = Some neck → m !! "LeftArm" = None →
  shoulder_step m = (m, [unrecognized_joint_name "LeftArm"]).
Proof.
  intros H1 H2. unfold shoulder_step, shoulder_block, mbind, try_mbind, try_bind, getitem.
  by rewrite H1, H2.
Qed.

Lemma shoulder_step_no_right_arm m neck left_arm :
  m !! "Neck" = Some neck → m !! "LeftArm" = Some left_arm → m !! "RightArm" = None →
  shoulder_step m =
    (<["LeftShoulder" := third_of_the_way neck left_arm]> m,
     [unrecognized_joint_name "RightArm"]).
Proof.
  intros H1 H2 H3.
  unfold shoulder_step, shoulder_block, mbind, try_mbind, try_bind, getitem, setitem.
  rewrite H1, H2. rewrite lookup_insert_ne by done. by rewrite H3.
Qed.

Lemma shoulder_step_all m neck left_arm right_arm :
  m !! "Neck" = Some neck → m !! "LeftArm" = Some left_arm →
  m !! "RightArm" = Some right_arm →
  shoulder_step m =
    (<["RightShoulder" := third_of_the_way neck right_arm]>
       (<["LeftShoulder" := third_of_the_way neck left_arm]> m), []).
Proof.
  intros H1 H2 H3.
  unfold shoulder_step, shoulder_block, mbind, try_mbind, try_bind, getitem, setitem.
  rewrite H1, H2. rewrite lookup_insert_ne by done. by rewrite H3.
Qed.

Lemma third_of_the_way_example :
  third_of_the_way vzero (Vec3 Qc3 Qc3 Qc3) = Vec3 1 1 1.
Proof. apply vec3_eq; apply Qc_is_canon; reflexivity. Qed.

(** The generic rule gives the joint the position of its spec entry. *)
Lemma generic_positions_lookup vertices spec m name :
  generic_positions vertices spec = Some m →
  m !! name = spec !! name ≫= calculate_joint_position_kw vertices.
Proof.
  unfold generic_positions. case_bool_decide; [|done]. intros [= <-].
  rewrite lookup_omap, lookup_fmap. by destruct (spec !! name).
Qed.

(** C6. When 'Neck', 'LeftArm' and 'RightArm' are all in the resolved map,
    the resolver sets 'LeftShoulder' to [Neck + (LeftArm - Neck) / 3] and
    'RightShoulder' to [Neck + (RightArm - Neck) / 3], overwriting entries
    the generic rule may have produced, prints nothing and leaves the other
    joints alone; with Neck = (0,0,0) and LeftArm = (3,3,3) the left shoulder
    is (1,1,1). *)
Theorem shoulder_rule vertices spec m neck left_arm right_arm :
  generic_positions vertices spec = Some m →
  m !! "Neck" = Some neck →
  m !! "LeftArm" = Some left_arm →
  m !! "RightArm" = Some right_arm →
  ∃ m',
    calculate_joint_positions vertices spec = Some (m', [])
    ∧ m' !! "LeftShoulder" = Some (vadd neck (vdiv (vsub left_arm neck) Qc3))
    ∧ m' !! "RightShoulder" = Some (vadd neck (vdiv (vsub right_arm neck) Qc3))
    ∧ (∀ name, name ≠ "LeftShoulder" → name ≠ "RightShoulder" → m' !! name = m !! name)
    ∧ (neck = vzero → left_arm = Vec3 Qc3 Qc3 Qc3 →
       m' !! "LeftShoulder" = Some (Vec3 1 1 1)).
Proof.
  intros Hgen Hn Hl Hr. unfold calculate_joint_positions. rewrite Hgen. simpl.
  rewrite (shoulder_step_all m neck left_arm right_arm) by done.
  eexists. split; [done|].
  split; [by rewrite lookup_insert_ne, lookup_insert_eq|].
  split; [by rewrite lookup_insert_eq|].
  split; [intros name H1 H2; by rewrite !lookup_insert_ne|].
  intros -> ->. rewrite lookup_insert_ne, lookup_insert_eq by done.
  apply (f_equal Some), third_of_the_way_example.
Qed.

Lemma shoulder_rule_witness :
  let vertices := [vzero; Vec3 Qc3 Qc3 Qc3; Vec3 (- Qc3) 0 0] in
  let spec : gmap string joint_spec :=
    <["Neck" := JointSpec [0%Z] None]>
      (<["LeftArm" := JointSpec [1%Z] None]>
         (<["RightArm" := JointSpec [2%Z] None]>
            (<["LeftShoulder" := JointSpec [2%Z] None]> ∅))) in
  ∃ m m',
    generic_positions vertices spec = Some m
    ∧ m !! "LeftShoulder" = Some (Vec3 (- Qc3) 0 0)
    ∧ calculate_joint_positions vertices spec = Some (m', [])
    ∧ m' !! "LeftShoulder" = Some (Vec3 1 1 1).
Proof.
  intros vertices spec.
  destruct (generic_positions vertices spec) as [m|] eqn:Hgen; [|by vm_compute in Hgen].
  assert (Hlook : ∀ name v,
    spec !! name ≫= calculate_joint_position_kw vertices = Some v → m !! name = Some v).
  { intros name v <-. by apply generic_positions_lookup. }
  destruct (shoulder_rule vertices spec m vzero (Vec3 Qc3 Qc3 Qc3) (Vec3 (- Qc3) 0 0) Hgen)
    as (m' & Hcalc & _ & _ & _ & Hex).
  - apply Hlook.
    transitivity (calculate_joint_position vertices [0%Z] default_relative_position);
      [reflexivity | by rewrite calculate_joint_position_single].
  - apply Hlook.
    transitivity (calculate_joint_position vertices [1%Z] default_relative_position);
      [reflexivity | by rewrite calculate_joint_position_single].
  - apply Hlook.
    transitivity (calculate_joint_position vertices [2%Z] default_relative_position);
      [reflexivity | by rewrite calculate_joint_position_single].
  - exists m, m'. split; [done|]. split.
    + apply Hlook.
      transitivity (calculate_joint_position vertices [2%Z] default_relative_position);
        [reflexivity | by rewrite calculate_joint_position_single].
    + split; [exact Hcalc | by apply Hex].
Defined.




(** ** Algebra of the affine matrices *)

Lemma mat3_eq (a b : mat3) :
  m00 a = m00 b → m01 a = m01 b → m02 a = m02 b →
  m10 a = m10 b → m11 a = m11 b → m12 a = m12 b →
  m20 a = m20 b → m21 a = m21 b → m22 a = m22 b → a = b.
Proof. destruct a, b; simpl; congruence. Qed.

Lemma amatrix_eq (a b : FbxAMatrix) : lin a = lin b → trans a = trans b → a = b.
Proof. destruct a, b; simpl; congruence. Qed.

Lemma mat3_mul_assoc a b c : mat3_mul a (mat3_mul b c) = mat3_mul (mat3_mul a b) c.
Proof. apply mat3_eq; simpl; ring. Qed.

Lemma mat3_mul_id_l a : mat3_mul mat3_id a = a.
Proof. apply mat3_eq; simpl; ring. Qed.

Lemma mat3_mul_id_r a : mat3_mul a mat3_id = a.
Proof. apply mat3_eq; simpl; ring. Qed.

Lemma mat3_vec_mul a b v : mat3_vec (mat3_mul a b) v = mat3_vec a (mat3_vec b v).
Proof. apply vec3_eq; simpl; ring. Qed.

Lemma mat3_vec_id v : mat3_vec mat3_id v = v.
Proof. apply vec3_eq; simpl; ring. Qed.

Lemma mat3_det_mul a b : mat3_det (mat3_mul a b) = mat3_det a * mat3_det b.
Proof. unfold mat3_det; simpl; ring. Qed.

Lemma mat3_det_id : mat3_det mat3_id = 1.
Proof. unfold mat3_det; simpl; ring. Qed.

Lemma mat3_inv_l a : mat3_det a ≠ 0 → mat3_mul (mat3_inv a) a = mat3_id.
Proof.
  intros Hd. unfold mat3_det in Hd.
  apply mat3_eq; unfold mat3_inv, mat3_det; simpl; field; exact Hd.
Qed.

Lemma mat3_inv_r a : mat3_det a ≠ 0 → mat3_mul a (mat3_inv a) = mat3_id.
Proof.
  intros Hd. unfold mat3_det in Hd.
  apply mat3_eq; unfold mat3_inv, mat3_det; simpl; field; exact Hd.
Qed.

Lemma amul_assoc a b c : a *m (b *m c) = a *m b *m c.
Proof.
  apply amatrix_eq; simpl; [apply mat3_mul_assoc|].
  apply vec3_eq; simpl; ring.
Qed.

Lemma amul_id_l a : amatrix_identity *m a = a.
Proof.
  apply amatrix_eq; simpl; [apply mat3_mul_id_l|]. apply vec3_eq; simpl; ring.
Qed.

Lemma amul_id_r a : a *m amatrix_identity = a.
Proof.
  apply amatrix_eq; simpl; [apply mat3_mul_id_r|]. apply vec3_eq; simpl; ring.
Qed.

Lemma invertible_amul a b : invertible a → invertible b → invertible (a *m b).
Proof.
  unfold invertible. simpl. rewrite mat3_det_mul. intros Ha Hb H.
  by destruct (Qcmult_integral _ _ H).
Qed.

Lemma invertible_identity : invertible amatrix_identity.
Proof. unfold invertible. simpl. by rewrite mat3_det_id. Qed.

Lemma Inverse_l a : invertible a → Inverse a *m a = amatrix_identity.
Proof.
  intros Ha. apply amatrix_eq; simpl; [by apply mat3_inv_l|].
  apply vec3_eq; simpl; ring.
Qed.

Lemma Inverse_r a : invertible a → a *m Inverse a = amatrix_identity.
Proof.
  intros Ha. apply amatrix_eq; simpl; [by apply mat3_inv_r|].
  set (li := mat3_inv (lin a)).
  assert (H : mat3_vec (lin a) (mat3_vec li (trans a)) = trans a).
  { rewrite <-mat3_vec_mul. unfold li. rewrite mat3_inv_r by done. apply mat3_vec_id. }
  apply (f_equal vx) in H as Hx. apply (f_equal vy) in H as Hy.
  apply (f_equal vz) in H as Hz. simpl in Hx, Hy, Hz.
  apply vec3_eq; simpl.
  - rewrite <-Hx at 4. ring.
  - rewrite <-Hy at 4. ring.
  - rewrite <-Hz at 4. ring.
Qed.

Lemma Inverse_amul a b :
  invertible a → invertible b → Inverse (a *m b) = Inverse b *m Inverse a.
Proof.
  intros Ha Hb.
  rewrite <-(amul_id_r (Inverse (a *m b))).
  rewrite <-(Inverse_r a Ha).
  rewrite <-(amul_id_r a) at 2. rewrite <-(Inverse_r b Hb).
  rewrite !amul_assoc.
  rewrite <-(amul_assoc (Inverse (a *m b)) a b).
  rewrite (Inverse_l (a *m b)) by (by apply invertible_amul).
  by rewrite amul_id_l.
Qed.

Lemma mat3_vec_inv_r a v : mat3_det a ≠ 0 → mat3_vec a (mat3_vec (mat3_inv a) v) = v.
Proof. intros Ha. by rewrite <-mat3_vec_mul, mat3_inv_r, mat3_vec_id. Qed.

Lemma mat3_vec_affine a u w p d :
  mat3_vec a u = d → mat3_vec a w = p →
  vadd (mat3_vec a (vadd u (vsub vzero w))) p = d.
Proof.
  intros Hu Hw.
  apply (f_equal vx) in Hu as Hux. apply (f_equal vy) in Hu as Huy.
  apply (f_equal vz) in Hu as Huz.
  apply (f_equal vx) in Hw as Hwx. apply (f_equal vy) in Hw as Hwy.
  apply (f_equal vz) in Hw as Hwz.
  simpl in *. apply vec3_eq; simpl.
  - rewrite <-Hux, <-Hwx. ring.
  - rewrite <-Huy, <-Hwy. ring.
  - rewrite <-Huz, <-Hwz. ring.
Qed.

(** The local translation the factory solves for, when the node's global
    transform is [pg * (T(t) * L)] with [pg] the parent's. *)
Lemma new_local_translation_eq (pg : FbxAMatrix) (L : mat3) (t d : vec3) :
  invertible pg → mat3_det L ≠ 0 →
  GetT (Inverse pg *m SetT amatrix_identity d *m Inverse (pg *m AMatrix L t)
        *m pg *m SetT amatrix_identity t)
  = vadd (mat3_vec (mat3_inv (lin pg)) d)
         (vsub vzero (mat3_vec (mat3_inv (lin pg)) (trans pg))).
Proof.
  intros Hpg HL.
  rewrite Inverse_amul by done.
  rewrite <-!amul_assoc. rewrite (amul_assoc (Inverse pg) pg).
  rewrite Inverse_l, amul_id_l by done.
  unfold GetT. simpl.
  apply vec3_eq; simpl; ring.
Qed.

(** Placing the solved translation back under the same parent gives a
    global transform whose translation is the target. *)
Lemma solved_translation_hits_target (pg : FbxAMatrix) (L : mat3) (t d : vec3) :
  invertible pg → mat3_det L ≠ 0 →
  GetT (pg *m AMatrix L
          (GetT (Inverse pg *m SetT amatrix_identity d *m Inverse (pg *m AMatrix L t)
                 *m pg *m SetT amatrix_identity t)))
  = d.
Proof.
  intros Hpg HL. rewrite new_local_translation_eq by done.
  unfold GetT. simpl trans. simpl lin.
  apply mat3_vec_affine; by apply mat3_vec_inv_r.
Qed.

(** ** Evaluation of global transforms *)

(** With enough fuel the result depends on the nodes up to [h] only. *)
Lemma eval_global_ext ns ns' :
  wf_nodes ns →
  ∀ f f' h, (h < f)%nat → (h < f')%nat →
    (∀ j, (j ≤ h)%nat → ns !! j = ns' !! j) →
    eval_global f ns h = eval_global f' ns' h.
Proof.
  intros Hwf f. induction f as [|f IH]; intros f' h Hf Hf' Hagree; [lia|].
  destruct f' as [|f']; [lia|]. simpl.
  rewrite <-(Hagree h) by lia.
  destruct (ns !! h) as [n|] eqn:Hn; [|done].
  destruct (node_parent n) as [p|] eqn:Hp; [|done].
  pose proof (Hwf h n p Hn Hp) as Hlt.
  rewrite (IH f' p) by (try lia; intros j Hj; apply Hagree; lia).
  done.
Qed.

Lemma eval_global_fuel ns f f' h :
  wf_nodes ns → (h < f)%nat → (h < f')%nat → eval_global f ns h = eval_global f' ns h.
Proof. intros Hwf ??. by apply eval_global_ext. Qed.

Lemma eval_global_is_Some ns :
  wf_nodes ns → ∀ f h, (h < f)%nat → (h < length ns)%nat → is_Some (eval_global f ns h).
Proof.
  intros Hwf f. induction f as [|f IH]; intros h Hf Hlen; [lia|]. simpl.
  destruct (lookup_lt_is_Some_2 ns h Hlen) as [n Hn]. rewrite Hn.
  destruct (node_parent n) as [p|] eqn:Hp; [|done].
  pose proof (Hwf h n p Hn Hp) as Hlt.
  destruct (IH p) as [pg Hpg]; [lia..|]. by rewrite Hpg.
Qed.

Lemma eval_global_invertible ns :
  all_invertible ns → ∀ f h g, eval_global f ns h = Some g → invertible g.
Proof.
  intros Hinv f. induction f as [|f IH]; intros h g; [done|]. simpl.
  destruct (ns !! h) as [n|] eqn:Hn; [|done].
  assert (Hloc : invertible (local_transform n)) by (by eapply Hinv).
  destruct (node_parent n) as [p|]; [|by intros [= <-]].
  destruct (eval_global f ns p) as [pg|] eqn:Hpg; [|done].
  intros [= <-]. apply invertible_amul; [by eapply IH | done].
Qed.

Lemma EvaluateGlobalTransform_is_Some w h :
  wf_nodes (nodes w) → (h < length (nodes w))%nat → is_Some (EvaluateGlobalTransform w h).
Proof. intros. apply eval_global_is_Some; [done|lia|done]. Qed.

(** The recursion of [EvaluateGlobalTransform], one step. *)
Lemma EvaluateGlobalTransform_unfold w h n :
  wf_nodes (nodes w) → nodes w !! h = Some n →
  EvaluateGlobalTransform w h =
    match node_parent n with
    | None => Some (local_transform n)
    | Some p =>
        match EvaluateGlobalTransform w p with
        | None => None
        | Some pg => Some (pg *m local_transform n)
        end
    end.
Proof.
  intros Hwf Hn. unfold EvaluateGlobalTransform.
  pose proof (lookup_lt_Some _ _ _ Hn) as Hlen.
  destruct (length (nodes w)) as [|k] eqn:Hk; [lia|].
  simpl. rewrite Hn. destruct (node_parent n) as [p|] eqn:Hp; [|done].
  pose proof (Hwf h n p Hn Hp).
  by rewrite (eval_global_fuel (nodes w) k (S k) p) by (done || lia).
Qed.

(** Two scenes that agree on the nodes up to [h] agree on its global
    transform. *)
Lemma EvaluateGlobalTransform_ext w w' h :
  wf_nodes (nodes w) → (h < length (nodes w))%nat → (h < length (nodes w'))%nat →
  (∀ j, (j ≤ h)%nat → nodes w !! j = nodes w' !! j) →
  EvaluateGlobalTransform w h = EvaluateGlobalTransform w' h.
Proof. intros. by apply eval_global_ext. Qed.

(** ** [_set_node_translation] *)

Lemma wf_nodes_alter (f : FbxNode → FbxNode) h ns :
  (∀ n, node_parent (f n) = node_parent n) → wf_nodes ns → wf_nodes (alter f h ns).
Proof.
  intros Hf Hwf k n p Hn Hp.
  destruct (decide (h = k)) as [->|Hne].
  - rewrite list_lookup_alter_eq in Hn.
    destruct (ns !! k) as [n0|] eqn:Hk; simplify_eq/=.
    rewrite Hf in Hp. by eapply Hwf.
  - rewrite list_lookup_alter_ne in Hn by done. by eapply Hwf.
Qed.

Lemma all_invertible_alter (f : FbxNode → FbxNode) h ns :
  (∀ n, LclLinear (f n) = LclLinear n) → all_invertible ns → all_invertible (alter f h ns).
Proof.
  intros Hf Hinv k n Hn.
  destruct (decide (h = k)) as [->|Hne].
  - rewrite list_lookup_alter_eq in Hn.
    destruct (ns !! k) as [n0|] eqn:Hk; simplify_eq/=.
    rewrite Hf. by eapply Hinv.
  - rewrite list_lookup_alter_ne in Hn by done. by eapply Hinv.
Qed.

(** What the call computes, in terms of the scene before the edit. *)
Lemma set_node_translation_eq location h w n p :
  wf_nodes (nodes w) → nodes w !! h = Some n → node_parent n = Some p →
  ∃ pg cg,
    EvaluateGlobalTransform w p = Some pg
    ∧ EvaluateGlobalTransform w h = Some cg
    ∧ cg = pg *m local_transform n
    ∧ set_node_translation location h w =
        Some (LclTranslation_Set h
                (GetT (Inverse pg *m SetT amatrix_identity location *m Inverse cg
                       *m pg *m SetT amatrix_identity (LclTranslation n))) w).
Proof.
  intros Hwf Hn Hp.
  pose proof (Hwf h n p Hn Hp) as Hlt.
  pose proof (lookup_lt_Some _ _ _ Hn) as Hlen.
  destruct (EvaluateGlobalTransform_is_Some w p Hwf) as [pg Hpg]; [lia|].
  exists pg, (pg *m local_transform n).
  assert (Hcg : EvaluateGlobalTransform w h = Some (pg *m local_transform n)).
  { rewrite (EvaluateGlobalTransform_unfold w h n Hwf Hn), Hp. by rewrite Hpg. }
  split; [done|]. split; [done|]. split; [done|].
  unfold set_node_translation. rewrite Hcg. simpl. rewrite Hn. simpl.
  rewrite Hp. simpl. by rewrite Hpg.
Qed.

(** C8. Setting the translation of a node for a target global position and
    evaluating the node's global transform again gives the target as its
    translation, whatever the node's rotation and scale and however long
    its chain of parents (exact arithmetic). *)
Theorem set_node_translation_reaches_target location h w n p :
  wf_nodes (nodes w) → all_invertible (nodes w) →
  nodes w !! h = Some n → node_parent n = Some p →
  ∃ w' g,
    set_node_translation location h w = Some w'
    ∧ EvaluateGlobalTransform w' h = Some g
    ∧ GetT g = location.
Proof.
  intros Hwf Hinv Hn Hp.
  destruct (set_node_translation_eq location h w n p Hwf Hn Hp)
    as (pg & cg & Hpg & Hcg & -> & Hset).
  pose proof (Hwf h n p Hn Hp) as Hlt.
  pose proof (lookup_lt_Some _ _ _ Hn) as Hlen.
  set (t' := GetT _) in Hset.
  set (w' := LclTranslation_Set h t' w) in *.
  assert (Hwf' : wf_nodes (nodes w')) by (by apply wf_nodes_alter).
  assert (Hn' : nodes w' !! h
                = Some (Node (node_name n) (node_parent n) t' (LclLinear n) (node_attribute n))).
  { unfold w'. simpl. by rewrite list_lookup_alter_eq, Hn. }
  assert (Hpg' : EvaluateGlobalTransform w' p = Some pg).
  { rewrite <-Hpg. symmetry. apply EvaluateGlobalTransform_ext; [done|lia| |].
    - unfold w'. simpl. rewrite length_alter. lia.
    - intros j Hj. unfold w'. simpl. rewrite list_lookup_alter_ne by lia. done. }
  exists w', (pg *m AMatrix (LclLinear n) t').
  split; [done|]. split.
  - rewrite (EvaluateGlobalTransform_unfold w' h _ Hwf' Hn'). simpl.
    rewrite Hp. by rewrite Hpg'.
  - unfold t'. apply solved_translation_hits_target.
    + unfold EvaluateGlobalTransform in Hpg. by eapply eval_global_invertible.
    + by eapply Hinv.
Qed.

Lemma set_node_translation_reaches_target_witness :
  let rot_z := Mat3 0 (- 1) 0  1 0 0  0 0 1 in
  let shear := Mat3 0 0 1  1 0 0  0 (1 + 1) 0 in
  let parent := Node "Hips" (Some 0%nat) (Vec3 1 (1 + 1) Qc3) rot_z None in
  let node := Node "Spine" (Some 1%nat) (Vec3 Qc3 0 0) shear None in
  let w := World [Node "RootNode" None vzero mat3_id None; parent; node] [] [] in
  let location := Vec3 Qc3 (- 1) (1 + 1) in
  ∃ w' g,
    set_node_translation location 2 w = Some w'
    ∧ EvaluateGlobalTransform w' 2 = Some g
    ∧ GetT g = location.
Proof.
  intros rot_z shear parent node w location.
  apply (set_node_translation_reaches_target location 2 w node 1).
  - intros [|[|[|h]]] n p; simpl; intros Hn Hp; simplify_eq/=; lia.
  - intros [|[|[|h]]] n; simpl; intros Hn; simplify_eq/=;
      intros H; apply (f_equal this) in H; vm_compute in H; discriminate H.
  - reflexivity.
  - reflexivity.
Defined.

(** ** [_extend_skeleton] *)

Lemma alter_snoc {A} (f : A → A) (l : list A) (x : A) :
  alter f (length l) (l ++ [x]) = l ++ [f x].
Proof. rewrite <-(Nat.add_0_r (length l)). by rewrite alter_app_r. Qed.

Lemma wf_nodes_snoc ns n :
  wf_nodes ns → (∀ p, node_parent n = Some p → (p < length ns)%nat) → wf_nodes (ns ++ [n]).
Proof.
  intros Hwf Hn h n' p Hlook Hp.
  destruct (decide (h < length ns)%nat) as [Hlt|Hge].
  - rewrite lookup_app_l in Hlook by done. by eapply Hwf.
  - rewrite lookup_app_r in Hlook by lia.
    destruct (h - length ns)%nat as [|k] eqn:Hk; simplify_eq/=.
    specialize (Hn p Hp). lia.
Qed.

Lemma wf_nodes_app_l ns new : wf_nodes (ns ++ new) → wf_nodes ns.
Proof.
  intros Hwf h n p Hn Hp. eapply Hwf; [|done].
  rewrite lookup_app_l; [done|]. by eapply lookup_lt_Some.
Qed.

Lemma bone_attached_eq parent name w :
  bone_attached parent name w
  = World (nodes w ++ [new_bone parent name vzero]) (poses w) (stdout w).
Proof.
  unfold bone_attached, AddChild, SetNodeAttribute, FbxNode_Create, set_nodes. simpl.
  by rewrite !alter_snoc.
Qed.

Lemma add_bone_eq parent name positions w :
  wf_nodes (nodes w) → (parent < length (nodes w))%nat →
  ∃ t,
    add_bone parent name positions w
      = Some (length (nodes w),
              World (nodes w ++ [new_bone parent name t]) (poses w)
                    (stdout w ++ bone_lines positions name))
    ∧ match positions !! name with
      | None => t = vzero
      | Some location =>
          ∃ pg cg,
            EvaluateGlobalTransform (bone_attached parent name w) parent = Some pg
            ∧ EvaluateGlobalTransform (bone_attached parent name w) (length (nodes w)) = Some cg
            ∧ t = GetT (Inverse pg *m SetT amatrix_identity location *m Inverse cg
                        *m pg *m SetT amatrix_identity vzero)
      end.
Proof.
  intros Hwf Hparent.
  unfold add_bone. simpl.
  change (AddChild parent (length (nodes w)) _) with (bone_attached parent name w).
  unfold bone_lines.
  destruct (positions !! name) as [location|] eqn:Hpos.
  - assert (Hwf1 : wf_nodes (nodes (bone_attached parent name w))).
    { rewrite bone_attached_eq. simpl. apply wf_nodes_snoc; [done|].
      simpl. intros p [= <-]. done. }
    assert (Hn : nodes (bone_attached parent name w) !! length (nodes w)
                 = Some (new_bone parent name vzero)).
    { rewrite bone_attached_eq. simpl. by rewrite list_lookup_middle. }
    destruct (set_node_translation_eq location (length (nodes w))
                (bone_attached parent name w) _ parent Hwf1 Hn eq_refl)
      as (pg & cg & Hpg & Hcg & _ & Hset).
    rewrite Hset. simpl. eexists. split.
    + do 2 f_equal. rewrite bone_attached_eq.
      unfold LclTranslation_Set, set_nodes. simpl.
      rewrite alter_snoc. by rewrite app_nil_r.
    + by exists pg, cg.
  - exists vzero. split; [|done]. by rewrite bone_attached_eq.
Qed.

(** Induction on joint trees, with the property for all the children. *)
Lemma JointTree_forall_ind (P : JointTree → Prop) :
  (∀ name children, Forall P children → P (mkJointTree name children)) →
  ∀ t, P t.
Proof.
  intros Hnode. fix IH 1. intros [name children]. apply Hnode.
  induction children as [|c cs IHcs]; constructor; [apply IH | exact IHcs].
Qed.

Lemma map_names_ok_app m w w' new :
  nodes w' = nodes w ++ new → map_names_ok m w → map_names_ok m w'.
Proof.
  intros Hnodes Hok name h Hm. specialize (Hok name h Hm). rewrite Hnodes.
  destruct (nodes w !! h) as [n|] eqn:Hn; [|done].
  by rewrite (lookup_app_l_Some _ _ _ _ Hn).
Qed.

Lemma extend_children_extended positions node cs :
  Forall (λ t, ∀ parent w, wf_nodes (nodes w) → (parent < length (nodes w))%nat →
            ∃ m w', extend_skeleton parent t positions w = Some (m, w')
                    ∧ extended positions (preorder t) ∅ w m w') cs →
  ∀ m0 w, wf_nodes (nodes w) → (node < length (nodes w))%nat → map_names_ok m0 w →
    ∃ m w',
      extend_children (λ child w, extend_skeleton node child positions w) cs m0 w
        = Some (m, w')
      ∧ extended positions (concat (map preorder cs)) m0 w m w'.
Proof.
  induction 1 as [|c cs Hc _ IH]; intros m0 w Hwf Hnode Hm0; simpl.
  - exists m0, w. split; [done|]. exists []. rewrite app_nil_r. simpl.
    split_and!; try done. rewrite app_nil_r. done.
    intros name. rewrite elem_of_nil. tauto.
  - destruct (Hc node w Hwf Hnode) as (mc & w1 & -> & new1 & Hn1 & Hnames1 & Hok1
                                       & Hwf1 & Hposes1 & Hout1 & Hkeys1 & Hmap1).
    assert (Hm1 : map_names_ok (mc ∪ m0) w1).
    { intros name h Hlook. apply lookup_union_Some_raw in Hlook as [Hlook|[_ Hlook]].
      - by apply Hmap1.
      - by eapply (map_names_ok_app m0 w w1). }
    destruct (IH (mc ∪ m0) w1 Hwf1) as (m & w' & -> & new2 & Hn2 & Hnames2 & Hok2
                                        & Hwf2 & Hposes2 & Hout2 & Hkeys2 & Hmap2);
      [rewrite Hn1, length_app; lia | done |].
    exists m, w'. split; [done|]. exists (new1 ++ new2).
    split_and!.
    + by rewrite Hn2, Hn1, app_assoc.
    + by rewrite fmap_app, Hnames1, Hnames2.
    + by apply Forall_app.
    + done.
    + congruence.
    + rewrite Hout2, Hout1, bind_app. by rewrite app_assoc.
    + intros name. pose proof (Hkeys1 name) as H1. pose proof (Hkeys2 name) as H2.
      rewrite lookup_union_is_Some in H2. rewrite lookup_empty in H1.
      pose proof (@is_Some_None nat). rewrite elem_of_app. tauto.
    + done.
Qed.

Lemma extend_skeleton_extended positions t :
  ∀ parent w, wf_nodes (nodes w) → (parent < length (nodes w))%nat →
    ∃ m w', extend_skeleton parent t positions w = Some (m, w')
            ∧ extended positions (preorder t) ∅ w m w'.
Proof.
  induction t as [name children IH] using JointTree_forall_ind.
  intros parent w Hwf Hparent. simpl.
  destruct (add_bone_eq parent name positions w Hwf Hparent) as (t & -> & Ht).
  set (w1 := World _ _ _).
  assert (Hwf1 : wf_nodes (nodes w1)).
  { simpl. apply wf_nodes_snoc; [done|]. simpl. by intros p [= <-]. }
  assert (Hm1 : map_names_ok (<[name := length (nodes w)]> ∅) w1).
  { intros k h Hk. apply lookup_insert_Some in Hk as [[<- <-]|[_ Hk]]; [|done].
    simpl. by rewrite list_lookup_middle. }
  destruct (extend_children_extended positions (length (nodes w)) children IH
              (<[name := length (nodes w)]> ∅) w1 Hwf1) as (m & w' & -> & new & Hn & Hnames & Hok
                             & Hwf' & Hposes & Hout & Hkeys & Hmap);
    [simpl; rewrite length_app; simpl; lia | done |].
  exists m, w'. split; [done|]. exists (new_bone parent name t :: new).
  split_and!.
  - rewrite Hn. simpl. by rewrite <-app_assoc.
  - rewrite fmap_cons. simpl preorder. by rewrite Hnames.
  - constructor; [|done]. split_and!; try done; simpl.
    intros Hnone. by rewrite Hnone in Ht.
  - done.
  - by rewrite Hposes.
  - rewrite Hout. simpl. by rewrite <-app_assoc.
  - intros k. pose proof (Hkeys k) as H1.
    rewrite lookup_insert_is_Some, lookup_empty in H1.
    rewrite lookup_empty, elem_of_cons.
    pose proof (@is_Some_None nat) as Hnone. split.
    + intros Hk. apply H1 in Hk. destruct Hk as [[Hk|Hk]|Hk]; auto; tauto.
    + intros [Hk|[Hk|Hk]]; [tauto| |]; apply H1; auto.
  - done.
Qed.

Lemma extend_skeleton_children_ok positions (children : list JointTree) :
  Forall (λ t, ∀ parent w, wf_nodes (nodes w) → (parent < length (nodes w))%nat →
            ∃ m w', extend_skeleton parent t positions w = Some (m, w')
                    ∧ extended positions (preorder t) ∅ w m w') children.
Proof. apply Forall_true. intros t. apply extend_skeleton_extended. Qed.

(** C1. For a joint with a target position, the skeleton builder sets the
    local translation of the new bone to the translation of
    [inverse(parent_global) * desired_global * inverse(current_global)
     * parent_global * current_local_translation],
    the two global transforms being evaluated in the scene before the edit;
    building the bones of the children does not change it. *)
Theorem new_local_translation_formula parent name children positions w location :
  wf_nodes (nodes w) → (parent < length (nodes w))%nat →
  positions !! name = Some location →
  let before := bone_attached parent name w in
  let node := length (nodes w) in
  let desired_global := SetT amatrix_identity location in
  ∃ parent_global current_global current_local after m w',
    EvaluateGlobalTransform before parent = Some parent_global
    ∧ EvaluateGlobalTransform before node = Some current_global
    ∧ LclTranslation <$> nodes before !! node = Some current_local
    ∧ set_node_translation location node before = Some after
    ∧ LclTranslation <$> nodes after !! node
        = Some (GetT (Inverse parent_global *m desired_global *m Inverse current_global
                      *m parent_global *m SetT amatrix_identity current_local))
    ∧ extend_skeleton parent (mkJointTree name children) positions w = Some (m, w')
    ∧ nodes w' !! node = nodes after !! node.
Proof.
  intros Hwf Hparent Hpos before node desired_global.
  assert (Hwf1 : wf_nodes (nodes before)).
  { unfold before. rewrite bone_attached_eq. simpl. apply wf_nodes_snoc; [done|].
    simpl. by intros p [= <-]. }
  assert (Hn : nodes before !! node = Some (new_bone parent name vzero)).
  { unfold before, node. rewrite bone_attached_eq. simpl. by rewrite list_lookup_middle. }
  destruct (set_node_translation_eq location node before _ parent Hwf1 Hn eq_refl)
    as (pg & cg & Hpg & Hcg & _ & Hset).
  destruct (add_bone_eq parent name positions w Hwf Hparent) as (t & Hadd & Ht).
  rewrite Hpos in Ht. destruct Ht as (pg' & cg' & Hpg' & Hcg' & ->).
  fold before in Hpg', Hcg'. fold node in Hcg'. simplify_eq.
  match type of Hadd with _ = Some (_, ?x) => set (w1 := x) in * end.
  destruct (extend_children_extended positions node children
              (extend_skeleton_children_ok positions children)
              (<[name := node]> ∅) w1) as (m & w' & Hloop & new & Hnodes & _).
  { simpl. apply wf_nodes_snoc; [done|]. simpl. by intros p [= <-]. }
  { simpl. rewrite length_app. simpl. unfold node. lia. }
  { intros k h Hk. apply lookup_insert_Some in Hk as [[<- <-]|[_ Hk]]; [|done].
    simpl. by rewrite list_lookup_middle. }
  eexists pg, cg, vzero, _, m, w'.
  split; [done|]. split; [done|]. split; [by rewrite Hn|]. split; [exact Hset|].
  assert (Hafter : ∀ t, nodes (LclTranslation_Set node t before) !! node
                        = Some (new_bone parent name t)).
  { intros t. unfold LclTranslation_Set, set_nodes. cbn [nodes].
    by rewrite list_lookup_alter_eq, Hn. }
  split; [by rewrite Hafter|].
  split.
  - simpl. rewrite Hadd. exact Hloop.
  - rewrite Hafter, Hnodes. simpl. rewrite <-app_assoc. simpl.
    by rewrite list_lookup_middle.
Qed.


Lemma FbxScene_Create_wf out : wf_nodes (nodes (FbxScene_Create out)).
Proof. intros [|h] n p; simpl; intros Hn Hp; simplify_eq/=. Qed.

Lemma new_local_translation_formula_witness :
  let w := FbxScene_Create [] in
  let location := Vec3 1 (1 + 1) Qc3 in
  let positions : gmap string vec3 := {[ "Root" := location ]} in
  let children := [mkJointTree "Child" []] in
  let before := bone_attached 0 "Root" w in
  ∃ parent_global current_global current_local after m w',
    EvaluateGlobalTransform before 0 = Some parent_global
    ∧ EvaluateGlobalTransform before 1 = Some current_global
    ∧ LclTranslation <$> nodes before !! 1%nat = Some current_local
    ∧ set_node_translation location 1 before = Some after
    ∧ LclTranslation <$> nodes after !! 1%nat
        = Some (GetT (Inverse parent_global *m SetT amatrix_identity location
                      *m Inverse current_global *m parent_global
                      *m SetT amatrix_identity current_local))
    ∧ extend_skeleton 0 (mkJointTree "Root" children) positions w = Some (m, w')
    ∧ nodes w' !! 1%nat = nodes after !! 1%nat.
Proof.
  intros w location positions children before.
  apply (new_local_translation_formula 0 "Root" children positions w location).
  - intros [|h] n p; simpl; intros Hn Hp; simplify_eq/=.
  - simpl. lia.
  - reflexivity.
Defined.


(** ** [_add_skin_and_bind_pose] *)

Lemma bind_joints_eq clusters w items :
  (∀ item, item ∈ items → is_Some (EvaluateGlobalTransform w item.2)) →
  ∀ skin bind_pose,
  ∃ ts,
    Forall2 (λ b t, EvaluateGlobalTransform w b.1.2 = Some t) (bound_joints clusters items) ts
    ∧ bind_joints clusters w items skin bind_pose
      = Some (skin ++ zip_with cluster_of (bound_joints clusters items) ts,
              bind_pose ++ zip ((bound_joints clusters items).*1.*2) ts).
Proof.
  induction items as [|[name node] items IH]; intros Hev skin bind_pose.
  - exists []. split; [constructor|]. simpl. by rewrite !app_nil_r.
  - assert (Hev' : ∀ item, item ∈ items → is_Some (EvaluateGlobalTransform w item.2)).
    { intros item Hin. apply Hev. by right. }
    unfold bound_joints. simpl.
    destruct (clusters !! name) as [ci|] eqn:Hci; [|by apply IH].
    destruct (Hev (name, node)) as [t Ht]; [by left|]. simpl in Ht. rewrite Ht.
    change (Cluster node eNormalize (zip (indices ci) (weights ci)) t)
      with (cluster_of (name, node, ci) t).
    destruct (IH Hev' (skin ++ [cluster_of (name, node, ci) t])
                (bind_pose ++ [(node, t)])) as (ts & Hts & ->).
    exists (t :: ts). split; [by constructor|].
    simpl. by rewrite <-!app_assoc.
Qed.

Lemma bound_joints_names clusters (m : gmap string nat) :
  NoDup ((bound_joints clusters (map_to_list m)).*1.*1).
Proof.
  pose proof (NoDup_fst_map_to_list m) as Hnd. unfold bound_joints.
  induction (map_to_list m) as [|[name node] items IH]; [constructor|].
  simpl in *. apply NoDup_cons in Hnd as [Hnotin Hnd].
  destruct (clusters !! name) as [ci|]; [|by apply IH].
  simpl. apply NoDup_cons. split; [|by apply IH].
  intros Hin. apply Hnotin.
  apply list_elem_of_fmap in Hin as (p1 & Hp1 & Hin).
  apply list_elem_of_fmap in Hin as (p2 & Hp2 & Hin).
  apply list_elem_of_omap in Hin as ([n h] & Hin & Hsome). simpl in Hsome.
  destruct (clusters !! n); simplify_eq/=.
  apply list_elem_of_fmap. by exists (n, h).
Qed.

Lemma elem_of_bound_joints clusters (m : gmap string nat) name node ci :
  (name, node, ci) ∈ bound_joints clusters (map_to_list m)
  ↔ m !! name = Some node ∧ clusters !! name = Some ci.
Proof.
  unfold bound_joints. rewrite list_elem_of_omap. split.
  - intros ([n h] & Hin & Hsome). simpl in Hsome.
    apply elem_of_map_to_list in Hin.
    destruct (clusters !! n) eqn:Hc; simplify_eq/=. done.
  - intros [Hm Hc]. exists (name, node). split; [by apply elem_of_map_to_list|].
    simpl. by rewrite Hc.
Qed.

(** The whole call, under the conditions that make the SDK calls succeed:
    a scene whose parents are older than their children, a mesh node that
    carries a mesh, and a node map into the scene. *)
Lemma add_skin_and_bind_pose_eq clusters (fbx_node_map : gmap string nat)
    fbx_mesh_node w mesh_node mesh :
  wf_nodes (nodes w) →
  nodes w !! fbx_mesh_node = Some mesh_node →
  node_attribute mesh_node = Some (AttrMesh mesh) →
  (∀ name node, fbx_node_map !! name = Some node → (node < length (nodes w))%nat) →
  let bound := bound_joints clusters (map_to_list fbx_node_map) in
  ∃ mesh_transform ts,
    EvaluateGlobalTransform w fbx_mesh_node = Some mesh_transform
    ∧ Forall2 (λ b t, EvaluateGlobalTransform w b.1.2 = Some t) bound ts
    ∧ add_skin_and_bind_pose clusters fbx_node_map fbx_mesh_node w
      = Some (AddPose (Pose true ((fbx_mesh_node, mesh_transform) :: zip (bound.*1.*2) ts))
                (SetNodeAttribute fbx_mesh_node
                   (AttrMesh (Mesh (mesh_control_points mesh)
                                   (mesh_deformers mesh ++ [zip_with cluster_of bound ts])))
                   w)).
Proof.
  intros Hwf Hmesh Hattr Hvalid bound.
  destruct (EvaluateGlobalTransform_is_Some w fbx_mesh_node Hwf) as [mt Hmt];
    [by eapply lookup_lt_Some|].
  destruct (bind_joints_eq clusters w (map_to_list fbx_node_map)) with
    (skin := @nil FbxCluster) (bind_pose := [(fbx_mesh_node, mt)])
    as (ts & Hts & Hbind).
  { intros [name node] Hin. apply elem_of_map_to_list in Hin. simpl.
    apply EvaluateGlobalTransform_is_Some; [done|]. by eapply Hvalid. }
  exists mt, ts. split; [done|]. split; [done|].
  unfold add_skin_and_bind_pose. rewrite Hmt. simpl. rewrite Hbind. simpl.
  unfold AddDeformer. rewrite Hmesh. simpl. by rewrite Hattr.
Qed.

Lemma mesh_deformers_at_set w h n mesh p :
  nodes w !! h = Some n →
  mesh_deformers_at (AddPose p (SetNodeAttribute h (AttrMesh mesh) w)) h = mesh_deformers mesh.
Proof.
  intros Hn. unfold mesh_deformers_at, AddPose, SetNodeAttribute, set_nodes. simpl.
  by rewrite list_lookup_alter_eq, Hn.
Qed.

Lemma cluster_links (bound : list (string * nat * ControlPointCluster))
    (ts : list FbxAMatrix) :
  length bound = length ts →
  cluster_link <$> zip_with cluster_of bound ts = bound.*1.*2.
Proof.
  revert ts. induction bound as [|b bound IH]; intros [|t ts] Hlen; simplify_eq/=; [done|].
  f_equal. by apply IH.
Qed.

Lemma clusters_of_bound (bound : list (string * nat * ControlPointCluster))
    (ts : list FbxAMatrix) :
  length bound = length ts →
  Forall2 (λ b c, cluster_link c = b.1.2
                  ∧ cluster_control_points c = zip (indices b.2) (weights b.2))
          bound (zip_with cluster_of bound ts).
Proof.
  revert ts. induction bound as [|b bound IH]; intros [|t ts] Hlen; simplify_eq/=;
    constructor; [done|by apply IH].
Qed.

Lemma elem_of_bound_pairs clusters (m : gmap string nat) name node :
  (name, node) ∈ (bound_joints clusters (map_to_list m)).*1
  ↔ m !! name = Some node ∧ is_Some (clusters !! name).
Proof.
  rewrite list_elem_of_fmap. split.
  - intros ([[n h] ci] & [= -> ->] & Hin). apply elem_of_bound_joints in Hin as [? ?].
    split; [done|by eexists].
  - intros [Hm [ci Hci]]. exists (name, node, ci). split; [done|].
    by apply elem_of_bound_joints.
Qed.

(** Zipping stops at the shorter list. *)
Lemma zip_take_min {A B} (l : list A) (k : list B) :
  zip l k = zip (take (length l `min` length k) l) (take (length l `min` length k) k).
Proof.
  revert k. induction l as [|x l IH]; intros [|y k]; simpl; [done..|].
  f_equal. apply IH.
Qed.

(** C7. The skin binder makes one cluster for each joint name that is in
    both the skeleton node map and the clusters, linked to the joint's
    node, and no other cluster; it prints nothing. *)
Theorem one_cluster_per_bound_joint clusters (fbx_node_map : gmap string nat)
    fbx_mesh_node w mesh_node mesh :
  wf_nodes (nodes w) →
  nodes w !! fbx_mesh_node = Some mesh_node →
  node_attribute mesh_node = Some (AttrMesh mesh) →
  map_Forall (λ _ node, (node < length (nodes w))%nat) fbx_node_map →
  ∃ w' skin (bound : list (string * nat)),
    add_skin_and_bind_pose clusters fbx_node_map fbx_mesh_node w = Some w'
    ∧ mesh_deformers_at w' fbx_mesh_node = mesh_deformers mesh ++ [skin]
    ∧ cluster_link <$> skin = bound.*2
    ∧ NoDup (bound.*1)
    ∧ (∀ name node, (name, node) ∈ bound
                    ↔ fbx_node_map !! name = Some node ∧ is_Some (clusters !! name))
    ∧ stdout w' = stdout w.
Proof.
  intros Hwf Hmesh Hattr Hvalid.
  destruct (add_skin_and_bind_pose_eq clusters fbx_node_map fbx_mesh_node w
              mesh_node mesh Hwf Hmesh Hattr Hvalid) as (mt & ts & _ & Hts & Hrun).
  eexists _, _, ((bound_joints clusters (map_to_list fbx_node_map)).*1).
  split; [exact Hrun|].
  split; [by erewrite mesh_deformers_at_set|].
  split; [apply cluster_links; by eapply Forall2_length|].
  split; [apply bound_joints_names|].
  split; [apply elem_of_bound_pairs|done].
Qed.

(** C10. The influences of a cluster are the pairs of the zipped index and
    weight lists: as many as the shorter list has, what is left of the longer
    one is dropped, without error and without output. *)
Theorem cluster_influences_zip clusters (fbx_node_map : gmap string nat)
    fbx_mesh_node w mesh_node mesh :
  wf_nodes (nodes w) →
  nodes w !! fbx_mesh_node = Some mesh_node →
  node_attribute mesh_node = Some (AttrMesh mesh) →
  map_Forall (λ _ node, (node < length (nodes w))%nat) fbx_node_map →
  ∃ w' skin,
    add_skin_and_bind_pose clusters fbx_node_map fbx_mesh_node w = Some w'
    ∧ mesh_deformers_at w' fbx_mesh_node = mesh_deformers mesh ++ [skin]
    ∧ stdout w' = stdout w
    ∧ (∀ name node cluster_info,
         fbx_node_map !! name = Some node → clusters !! name = Some cluster_info →
         let n := length (indices cluster_info) `min` length (weights cluster_info) in
         ∃ c, c ∈ skin
              ∧ cluster_link c = node
              ∧ length (cluster_control_points c) = n
              ∧ cluster_control_points c
                = zip (take n (indices cluster_info)) (take n (weights cluster_info)))
    ∧ (∀ c, c ∈ skin →
         ∃ name node cluster_info,
           fbx_node_map !! name = Some node ∧ clusters !! name = Some cluster_info
           ∧ cluster_link c = node
           ∧ cluster_control_points c
             = zip (indices cluster_info) (weights cluster_info)).
Proof.
  intros Hwf Hmesh Hattr Hvalid.
  destruct (add_skin_and_bind_pose_eq clusters fbx_node_map fbx_mesh_node w
              mesh_node mesh Hwf Hmesh Hattr Hvalid) as (mt & ts & _ & Hts & Hrun).
  pose proof (clusters_of_bound _ _ (Forall2_length _ _ _ Hts)) as Hskin.
  eexists _, _. split; [exact Hrun|].
  split; [by erewrite mesh_deformers_at_set|].
  split; [done|]. split.
  - intros name node ci Hm Hc n.
    assert (Hin : (name, node, ci) ∈ bound_joints clusters (map_to_list fbx_node_map))
      by (by apply elem_of_bound_joints).
    apply list_elem_of_lookup in Hin as [i Hi].
    destruct (Forall2_lookup_l _ _ _ _ _ Hskin Hi) as (c & Hc' & Hlink & Hpts).
    exists c. split; [by eapply list_elem_of_lookup_2|]. split; [done|].
    simpl in Hpts. rewrite Hpts. split; [apply length_zip|apply zip_take_min].
  - intros c Hin. apply list_elem_of_lookup in Hin as [i Hi].
    destruct (Forall2_lookup_r _ _ _ _ _ Hskin Hi) as ([[name node] ci] & Hb & Hlink & Hpts).
    apply list_elem_of_lookup_2, elem_of_bound_joints in Hb as [Hm Hc].
    by exists name, node, ci.
Qed.

(** C3, as the code has it.  The bind pose holds the global transform of the
    mesh node and of the node of every joint that has a cluster entry, all
    evaluated in the scene at bind time, and of no other joint. *)
Theorem bind_pose_snapshots clusters (fbx_node_map : gmap string nat)
    fbx_mesh_node w mesh_node mesh :
  wf_nodes (nodes w) →
  nodes w !! fbx_mesh_node = Some mesh_node →
  node_attribute mesh_node = Some (AttrMesh mesh) →
  map_Forall (λ _ node, (node < length (nodes w))%nat) fbx_node_map →
  ∃ w' mesh_transform (bound : list (string * nat)) ts,
    add_skin_and_bind_pose clusters fbx_node_map fbx_mesh_node w = Some w'
    ∧ poses w' = poses w
                 ++ [Pose true ((fbx_mesh_node, mesh_transform) :: zip (bound.*2) ts)]
    ∧ EvaluateGlobalTransform w fbx_mesh_node = Some mesh_transform
    ∧ Forall2 (λ b t, EvaluateGlobalTransform w b.2 = Some t) bound ts
    ∧ NoDup (bound.*1)
    ∧ (∀ name node, (name, node) ∈ bound
                    ↔ fbx_node_map !! name = Some node ∧ is_Some (clusters !! name)).
Proof.
  intros Hwf Hmesh Hattr Hvalid.
  destruct (add_skin_and_bind_pose_eq clusters fbx_node_map fbx_mesh_node w
              mesh_node mesh Hwf Hmesh Hattr Hvalid) as (mt & ts & Hmt & Hts & Hrun).
  eexists _, mt, ((bound_joints clusters (map_to_list fbx_node_map)).*1), ts.
  split; [exact Hrun|]. split; [done|]. split; [done|].
  split; [by apply Forall2_fmap_l|].
  split; [apply bound_joints_names | apply elem_of_bound_pairs].
Qed.

Lemma one_cluster_per_bound_joint_witness :
  ∃ w' skin (bound : list (string * nat)),
    add_skin_and_bind_pose example_clusters example_node_map 1 example_scene = Some w'
    ∧ mesh_deformers_at w' 1 = [] ++ [skin]
    ∧ cluster_link <$> skin = bound.*2
    ∧ NoDup (bound.*1)
    ∧ (∀ name node, (name, node) ∈ bound
                    ↔ example_node_map !! name = Some node
                      ∧ is_Some (example_clusters !! name))
    ∧ stdout w' = stdout example_scene.
Proof.
  apply (one_cluster_per_bound_joint example_clusters example_node_map 1 example_scene
           (Node "BodyLabs_body" (Some 0%nat) vzero mat3_id (Some (AttrMesh (Mesh [vzero] []))))
           (Mesh [vzero] [])).
  - intros [|[|[|[|h]]]] n p; simpl; intros Hn Hp; simplify_eq/=; lia.
  - reflexivity.
  - reflexivity.
  - unfold example_node_map. repeat apply map_Forall_insert_2; simpl; try lia.
    apply map_Forall_empty.
Defined.

Lemma cluster_influences_zip_witness :
  ∃ w' skin c,
    add_skin_and_bind_pose example_clusters example_node_map 1 example_scene = Some w'
    ∧ mesh_deformers_at w' 1 = [] ++ [skin]
    ∧ stdout w' = stdout example_scene
    ∧ c ∈ skin
    ∧ cluster_link c = 2%nat
    ∧ length (cluster_control_points c) = 2%nat
    ∧ cluster_control_points c = [(0%Z, 1); (1%Z, 1)].
Proof.
  destruct (cluster_influences_zip example_clusters example_node_map 1 example_scene
              (Node "BodyLabs_body" (Some 0%nat) vzero mat3_id (Some (AttrMesh (Mesh [vzero] []))))
              (Mesh [vzero] []))
    as (w' & skin & Hrun & Hdef & Hout & Hall & _).
  - intros [|[|[|[|h]]]] n p; simpl; intros Hn Hp; simplify_eq/=; lia.
  - reflexivity.
  - reflexivity.
  - unfold example_node_map. repeat apply map_Forall_insert_2; simpl; try lia.
    apply map_Forall_empty.
  - destruct (Hall "Root" 2%nat (mkControlPointCluster [0; 1; 2]%Z [1; 1]))
      as (c & Hin & Hlink & Hlen & Hpts); [reflexivity | reflexivity |].
    exists w', skin, c. split; [exact Hrun|]. split; [exact Hdef|]. split; [exact Hout|].
    split; [exact Hin|]. split; [exact Hlink|]. split; [exact Hlen | exact Hpts].
Defined.

Lemma bind_pose_snapshots_witness :
  ∃ w' mesh_transform (bound : list (string * nat)) ts,
    add_skin_and_bind_pose example_clusters example_node_map 1 example_scene = Some w'
    ∧ poses w' = [] ++ [Pose true ((1%nat, mesh_transform) :: zip (bound.*2) ts)]
    ∧ EvaluateGlobalTransform example_scene 1 = Some mesh_transform
    ∧ Forall2 (λ b t, EvaluateGlobalTransform example_scene b.2 = Some t) bound ts
    ∧ NoDup (bound.*1)
    ∧ (∀ name node, (name, node) ∈ bound
                    ↔ example_node_map !! name = Some node
                      ∧ is_Some (example_clusters !! name)).
Proof.
  apply (bind_pose_snapshots example_clusters example_node_map 1 example_scene
           (Node "BodyLabs_body" (Some 0%nat) vzero mat3_id (Some (AttrMesh (Mesh [vzero] []))))
           (Mesh [vzero] [])).
  - intros [|[|[|[|h]]]] n p; simpl; intros Hn Hp; simplify_eq/=; lia.
  - reflexivity.
  - reflexivity.
  - unfold example_node_map. repeat apply map_Forall_insert_2; simpl; try lia.
    apply map_Forall_empty.
Defined.

(** C3 as stated fails: the joint 'Child' is in the skeleton node map, it
    has no cluster, and its node is not in the bind pose. *)
Lemma bind_pose_skips_joint_without_cluster :
  ∃ w' p,
    add_skin_and_bind_pose example_clusters example_node_map 1 example_scene = Some w'
    ∧ poses w' = [p]
    ∧ example_node_map !! "Child" = Some 3%nat
    ∧ (pose_entries p).*1 = [1%nat; 2%nat]
    ∧ ¬ (∀ name node, example_node_map !! name = Some node → node ∈ (pose_entries p).*1).
Proof.
  eexists _, _. split; [vm_compute; reflexivity|].
  split; [reflexivity|]. split; [reflexivity|]. split; [reflexivity|].
  intros H. specialize (H "Child" 3%nat eq_refl). simpl in H.
  apply elem_of_cons in H as [H|H]; [discriminate|].
  apply list_elem_of_singleton in H. discriminate.
Qed.

(** ** [construct_rig]: the three steps fit together *)

Lemma map_names_ok_valid (m : gmap string nat) w :
  map_names_ok m w → map_Forall (λ _ node, (node < length (nodes w))%nat) m.
Proof.
  intros Hok name node Hm. specialize (Hok name node Hm).
  destruct (nodes w !! node) as [n|] eqn:Hn; [|done]. by eapply lookup_lt_Some.
Qed.

(** Whenever the landmark resolver returns, [construct_rig] returns a scene:
    the scene built by [_set_mesh] and [_extend_skeleton] meets what the skin
    binder needs.  The scene has the root, the mesh node and one bone per
    joint of the tree, one bind pose, and the output is that of the resolver
    followed by that of the skeleton builder. *)
Lemma construct_rig_runs self vertices out positions lines :
  calculate_joint_positions vertices (_joint_position_spec self) = Some (positions, lines) →
  ∃ w',
    construct_rig self vertices out = Some w'
    ∧ length (nodes w') = (2 + length (preorder (_joint_tree self)))%nat
    ∧ length (poses w') = 1%nat
    ∧ length (mesh_deformers_at w' 1) = 1%nat
    ∧ stdout w' = out ++ lines ++ (preorder (_joint_tree self) ≫= bone_lines positions).
Proof.
  intros Hpos. unfold construct_rig. simpl. rewrite Hpos. simpl.
  set (mesh_node := Node "BodyLabs_body" (Some GetRootNode) vzero mat3_id
                         (Some (AttrMesh (Mesh vertices [])))).
  set (w1 := World _ _ _).
  assert (Hwf1 : wf_nodes (nodes w1)).
  { intros [|[|h]] n p; simpl; intros Hn Hp; simplify_eq/=. unfold GetRootNode. lia. }
  destruct (extend_skeleton_extended positions (_joint_tree self) GetRootNode w1 Hwf1)
    as (m & w2 & -> & new & Hnodes & Hnames & _ & Hwf2 & Hposes & Hout & _ & Hmap);
    [simpl; unfold GetRootNode; lia|].
  simpl.
  assert (Hmesh : nodes w2 !! 1%nat = Some mesh_node) by (by rewrite Hnodes).
  destruct (add_skin_and_bind_pose_eq (_clusters self) m 1 w2 mesh_node (Mesh vertices [])
              Hwf2 Hmesh eq_refl (map_names_ok_valid m w2 Hmap))
    as (mt & ts & _ & _ & Hrun).
  eexists. split; [exact Hrun|].
  split.
  { unfold AddPose, SetNodeAttribute, set_nodes. simpl.
    rewrite length_alter, Hnodes, length_app, <-Hnames, length_fmap. done. }
  split; [simpl; rewrite Hposes, length_app; done|].
  split; [by erewrite mesh_deformers_at_set|].
  simpl. rewrite Hout. simpl. by rewrite <-app_assoc.
Qed.

(** The end-to-end scenario of the specification: two bones at the expected
    global positions, and a skin of two clusters with the expected
    influences.  The one line of output is the shoulder step reporting that
    this rig has no 'Neck'. *)
Example construct_rig_end_to_end :
  ∃ w' g_root g_child skin,
    construct_rig example_factory example_vertices [] = Some w'
    ∧ node_name <$> nodes w' = ["RootNode"; "BodyLabs_body"; "Root"; "Child"]
    ∧ EvaluateGlobalTransform w' 2 = Some g_root ∧ GetT g_root = vzero
    ∧ EvaluateGlobalTransform w' 3 = Some g_child ∧ GetT g_child = Vec3 1 (1 + 1) 0
    ∧ mesh_deformers_at w' 1 = [skin]
    ∧ skin ≡ₚ [Cluster 2 eNormalize [(0%Z, 1); (3%Z, 1)] g_root;
               Cluster 3 eNormalize [(1%Z, 1); (2%Z, 1)] g_child]
    ∧ stdout w' = [unrecognized_joint_name "Neck"].
Proof.
  eexists _, _, _, _.
  split; [vm_compute; reflexivity|].
  split; [reflexivity|].
  split; [vm_compute; reflexivity|].
  split; [apply vec3_eq; apply Qc_is_canon; reflexivity|].
  split; [vm_compute; reflexivity|].
  split; [apply vec3_eq; apply Qc_is_canon; reflexivity|].
  split; [vm_compute; reflexivity|].
  split; [|reflexivity].
  first [ reflexivity | apply Permutation_swap ].
Qed.

(** * Further properties of the code *)

(** ** [calculate_joint_position]: indices and failure *)

Lemma np_row_is_Some vertices i : is_Some (np_row vertices i) ↔ np_index_ok vertices i.
Proof.
  unfold np_row, np_index_ok.
  case_bool_decide as H0.
  - rewrite lookup_lt_is_Some. lia.
  - case_bool_decide as H1.
    + rewrite lookup_lt_is_Some. lia.
    + split; [by intros [? ?]|lia].
Qed.

Lemma np_row_None vertices i : np_row vertices i = None ↔ ¬ np_index_ok vertices i.
Proof. rewrite <-np_row_is_Some, eq_None_not_Some. done. Qed.

Lemma extrema_is_Some pts : is_Some (extrema pts) ↔ pts ≠ [].
Proof.
  destruct pts as [|a [|b [|c pts]]]; simpl.
  - split; [by intros [? ?]|done].
  - done.
  - done.
  - split; [done|]. intros _.
    destruct (extrema_many (a :: b :: c :: pts)) as (v1 & v2 & -> & _); [simpl; lia|done].
Qed.

Lemma np_take_rows_None vertices refs :
  np_take_rows vertices refs = None ↔ ∃ i, i ∈ refs ∧ ¬ np_index_ok vertices i.
Proof.
  unfold np_take_rows. rewrite eq_None_not_Some, mapM_is_Some.
  rewrite <-Exists_Forall_neg
    by (intros i; simpl; destruct (np_row vertices i); [left; by eexists|right; by intros [? ?]]).
  rewrite Exists_exists. apply exist_proper. intros i. simpl.
  by rewrite np_row_is_Some.
Qed.

(** X1. The call raises exactly when the list of reference vertices is
    empty or holds an index outside [-V, V), V being the number of
    vertices; the relative position plays no part in that. *)
Theorem calculate_joint_position_raises vertices refs rp :
  calculate_joint_position vertices refs rp = None
  ↔ refs = [] ∨ ∃ i, i ∈ refs ∧ ¬ np_index_ok vertices i.
Proof.
  unfold calculate_joint_position.
  destruct (np_take_rows vertices refs) as [pts|] eqn:Hpts; simpl.
  - pose proof (np_take_rows_length _ _ _ Hpts) as Hlen.
    assert (Hin : ¬ ∃ i, i ∈ refs ∧ ¬ np_index_ok vertices i).
    { rewrite <-np_take_rows_None, Hpts. done. }
    destruct (extrema pts) as [e|] eqn:He; simpl.
    + split; [done|]. intros [->|?]; [|tauto].
      destruct pts; [discriminate He | discriminate Hlen].
    + split; [|done]. intros _. left.
      apply eq_None_not_Some in He. rewrite extrema_is_Some in He.
      destruct pts; [|exfalso; by apply He]. by destruct refs.
  - split; [|done]. intros _. right. by apply np_take_rows_None.
Qed.

(** X2. A negative index [i ≥ -V] selects the row [V + i]: writing the
    reference vertices from the end or from the front gives the same
    joint position. *)
Lemma np_row_from_front vertices i :
  np_index_ok vertices i → np_row vertices (np_index_from_front vertices i) = np_row vertices i.
Proof.
  unfold np_index_ok, np_index_from_front, np_row. intros Hi.
  destruct (decide (i < 0)%Z) as [Hneg|Hpos].
  - rewrite (bool_decide_eq_true_2 (i < 0)%Z) by done.
    rewrite (bool_decide_eq_true_2 (0 ≤ _ + i)%Z) by lia.
    rewrite (bool_decide_eq_false_2 (0 ≤ i)%Z) by lia.
    by rewrite (bool_decide_eq_true_2 (- _ ≤ i)%Z) by lia.
  - by rewrite (bool_decide_eq_false_2 (i < 0)%Z) by done.
Qed.

Theorem negative_indices_count_from_the_end vertices refs rp :
  Forall (np_index_ok vertices) refs →
  calculate_joint_position vertices (np_index_from_front vertices <$> refs) rp
  = calculate_joint_position vertices refs rp.
Proof.
  intros Hok. unfold calculate_joint_position, np_take_rows.
  f_equal. induction Hok as [|i refs Hi _ IH]; [done|].
  rewrite fmap_cons. simpl. rewrite np_row_from_front by done.
  destruct (np_row vertices i); simpl; [|done]. by rewrite IH.
Qed.

Lemma negative_indices_count_from_the_end_witness :
  let vertices := [Vec3 1 0 0; Vec3 0 1 0; Vec3 0 0 1] in
  np_index_from_front vertices <$> [-1; 0; -3]%Z = [2; 0; 0]%Z
  ∧ calculate_joint_position vertices [2; 0; 0]%Z default_relative_position
    = calculate_joint_position vertices [-1; 0; -3]%Z default_relative_position.
Proof.
  intros vertices. split; [reflexivity|].
  apply (negative_indices_count_from_the_end vertices [-1; 0; -3]%Z default_relative_position).
  repeat constructor; unfold np_index_ok; simpl; lia.
Defined.

(** ** [calculate_joint_position]: geometry *)





(** The rows gathered are the rows the indices select. *)
Lemma elem_of_np_take_rows vertices refs pts p :
  np_take_rows vertices refs = Some pts →
  p ∈ pts ↔ ∃ i, i ∈ refs ∧ np_row vertices i = Some p.
Proof.
  unfold np_take_rows. rewrite mapM_Some. intros HF. split.
  - intros Hp. apply list_elem_of_lookup in Hp as [k Hk].
    destruct (Forall2_lookup_r _ _ _ _ _ HF Hk) as (i & Hi & Hrow).
    exists i. split; [by eapply list_elem_of_lookup_2|done].
  - intros (i & Hi & Hrow). apply list_elem_of_lookup in Hi as [k Hk].
    destruct (Forall2_lookup_l _ _ _ _ _ HF Hk) as (p' & Hp' & Hrow').
    rewrite Hrow in Hrow'. injection Hrow' as <-. by eapply list_elem_of_lookup_2.
Qed.

Lemma componentwise_min_unique v v' pts pts' :
  (∀ p, p ∈ pts ↔ p ∈ pts') →
  componentwise_min v pts → componentwise_min v' pts' → v = v'.
Proof.
  intros Hsame (Hlow & (px & Hpx & Hx) & (py & Hpy & Hy) & (pz & Hpz & Hz))
         (Hlow' & (px' & Hpx' & Hx') & (py' & Hpy' & Hy') & (pz' & Hpz' & Hz')).
  apply vec3_eq; apply Qcle_antisym.
  - rewrite <-Hx'. apply Hlow. by apply Hsame.
  - rewrite <-Hx. apply Hlow'. by apply Hsame.
  - rewrite <-Hy'. apply Hlow. by apply Hsame.
  - rewrite <-Hy. apply Hlow'. by apply Hsame.
  - rewrite <-Hz'. apply Hlow. by apply Hsame.
  - rewrite <-Hz. apply Hlow'. by apply Hsame.
Qed.

Lemma componentwise_max_unique v v' pts pts' :
  (∀ p, p ∈ pts ↔ p ∈ pts') →
  componentwise_max v pts → componentwise_max v' pts' → v = v'.
Proof.
  intros Hsame (Hup & (px & Hpx & Hx) & (py & Hpy & Hy) & (pz & Hpz & Hz))
         (Hup' & (px' & Hpx' & Hx') & (py' & Hpy' & Hy') & (pz' & Hpz' & Hz')).
  apply vec3_eq; apply Qcle_antisym.
  - rewrite <-Hx. apply Hup'. by apply Hsame.
  - rewrite <-Hx'. apply Hup. by apply Hsame.
  - rewrite <-Hy. apply Hup'. by apply Hsame.
  - rewrite <-Hy'. apply Hup. by apply Hsame.
  - rewrite <-Hz. apply Hup'. by apply Hsame.
  - rewrite <-Hz'. apply Hup. by apply Hsame.
Qed.

(** X5. With more than two reference vertices only the set of vertices
    counts: two lists of more than two indices that name the same indices,
    in any order and with any repetitions, give the same joint position. *)
Theorem many_reference_vertices_as_a_set vertices refs refs' rp :
  (2 < length refs)%nat → (2 < length refs')%nat →
  (∀ i, i ∈ refs ↔ i ∈ refs') →
  calculate_joint_position vertices refs rp = calculate_joint_position vertices refs' rp.
Proof.
  intros Hlen Hlen' Hsame. unfold calculate_joint_position.
  destruct (np_take_rows vertices refs) as [pts|] eqn:Hpts.
  - destruct (np_take_rows vertices refs') as [pts'|] eqn:Hpts'.
    + simpl.
      assert (Hel : ∀ p, p ∈ pts ↔ p ∈ pts').
      { intros p. rewrite (elem_of_np_take_rows _ _ _ p Hpts).
        rewrite (elem_of_np_take_rows _ _ _ p Hpts').
        apply exist_proper. intros i. by rewrite Hsame. }
      destruct (extrema_many pts) as (v1 & v2 & -> & Hmin & Hmax);
        [by rewrite (np_take_rows_length _ _ _ Hpts)|].
      destruct (extrema_many pts') as (v1' & v2' & -> & Hmin' & Hmax');
        [by rewrite (np_take_rows_length _ _ _ Hpts')|].
      simpl.
      rewrite (componentwise_min_unique v1 v1' pts pts' Hel Hmin Hmin').
      by rewrite (componentwise_max_unique v2 v2' pts pts' Hel Hmax Hmax').
    + apply np_take_rows_None in Hpts' as (i & Hi & Hbad).
      assert (np_take_rows vertices refs = None) as Hnone; [|by rewrite Hnone in Hpts].
      apply np_take_rows_None. exists i. by rewrite Hsame.
  - apply np_take_rows_None in Hpts as (i & Hi & Hbad).
    assert (np_take_rows vertices refs' = None) as ->; [|done].
    apply np_take_rows_None. exists i. by rewrite <-Hsame.
Qed.

Lemma many_reference_vertices_as_a_set_witness :
  let vertices := [Vec3 1 0 0; Vec3 0 1 0; Vec3 0 0 1; Vec3 Qc3 Qc3 Qc3] in
  calculate_joint_position vertices [0; 1; 3]%Z default_relative_position
  = calculate_joint_position vertices [3; 0; 1; 0; 3]%Z default_relative_position.
Proof.
  intros vertices.
  apply (many_reference_vertices_as_a_set vertices [0; 1; 3]%Z [3; 0; 1; 0; 3]%Z
           default_relative_position).
  - simpl. lia.
  - simpl. lia.
  - intros i. rewrite !elem_of_cons, !elem_of_nil. tauto.
Defined.












(** ** [calculate_joint_positions]: the whole map *)

Lemma generic_positions_None vertices spec :
  generic_positions vertices spec = None
  ↔ ∃ name js, spec !! name = Some js ∧ calculate_joint_position_kw vertices js = None.
Proof.
  unfold generic_positions. case_bool_decide as H.
  - split; [done|]. intros (name & js & Hjs & Hnone).
    destruct (H name None) as [? [=]]. by rewrite lookup_fmap, Hjs, <-Hnone.
  - split; [|done]. intros _.
    destruct (decide (map_Forall (λ _ js, is_Some (calculate_joint_position_kw vertices js)) spec))
      as [Hall|Hex].
    + exfalso. apply H. intros name o. rewrite lookup_fmap.
      destruct (spec !! name) as [js|] eqn:Hjs; [|done]. intros [= <-]. by eapply Hall.
    + apply map_not_Forall in Hex; [|apply _]. destruct Hex as (name & js & Hjs & Hnot).
      exists name, js. split; [done|]. by apply eq_None_not_Some.
Qed.

(** X7. The resolver raises exactly when the generic rule raises for some
    joint of the spec; the shoulder step never makes it fail. *)
Theorem calculate_joint_positions_raises vertices spec :
  calculate_joint_positions vertices spec = None
  ↔ ∃ name js, spec !! name = Some js ∧ calculate_joint_position_kw vertices js = None.
Proof.
  rewrite <-generic_positions_None. unfold calculate_joint_positions.
  by destruct (generic_positions vertices spec).
Qed.

Lemma shoulder_step_other m name :
  name ≠ "LeftShoulder" → name ≠ "RightShoulder" → (shoulder_step m).1 !! name = m !! name.
Proof.
  intros H1 H2.
  destruct (m !! "Neck") as [neck|] eqn:Hn;
    [|by rewrite (shoulder_step_no_neck m Hn)].
  destruct (m !! "LeftArm") as [left_arm|] eqn:Hl;
    [|by rewrite (shoulder_step_no_left_arm m neck Hn Hl)].
  destruct (m !! "RightArm") as [right_arm|] eqn:Hr.
  - rewrite (shoulder_step_all m neck left_arm right_arm Hn Hl Hr). simpl.
    by rewrite !lookup_insert_ne.
  - rewrite (shoulder_step_no_right_arm m neck left_arm Hn Hl Hr). simpl.
    by rewrite lookup_insert_ne.
Qed.

(** X8. Apart from the two shoulders, the resolved map has exactly the
    joints of the spec, each at the position of the generic rule: no joint
    is dropped and none is invented. *)
Theorem resolved_map_follows_spec vertices spec m lines name :
  calculate_joint_positions vertices spec = Some (m, lines) →
  name ≠ "LeftShoulder" → name ≠ "RightShoulder" →
  m !! name = match spec !! name with
              | Some js => calculate_joint_position_kw vertices js
              | None => None
              end.
Proof.
  unfold calculate_joint_positions. intros Hrun H1 H2.
  destruct (generic_positions vertices spec) as [m0|] eqn:Hgen; [|done].
  simpl in Hrun. injection Hrun as Hstep.
  assert (m = (shoulder_step m0).1) as -> by (by rewrite Hstep).
  rewrite shoulder_step_other by done.
  rewrite (generic_positions_lookup vertices spec m0 name Hgen).
  by destruct (spec !! name).
Qed.

Lemma resolved_map_follows_spec_witness :
  let vertices := [vzero; Vec3 Qc3 Qc3 Qc3] in
  let spec : gmap string joint_spec :=
    <["Neck" := JointSpec [0%Z] None]> (<["Hips" := JointSpec [1%Z] None]> ∅) in
  ∃ m lines,
    calculate_joint_positions vertices spec = Some (m, lines)
    ∧ m !! "Hips" = calculate_joint_position_kw vertices (JointSpec [1%Z] None)
    ∧ m !! "Head" = None.
Proof.
  intros vertices spec.
  assert (∃ m lines, calculate_joint_positions vertices spec = Some (m, lines))
    as (m & lines & Hrun) by (eexists _, _; vm_compute; reflexivity).
  exists m, lines. split; [exact Hrun|]. split.
  - apply (resolved_map_follows_spec vertices spec m lines "Hips" Hrun); discriminate.
  - apply (resolved_map_follows_spec vertices spec m lines "Head" Hrun); discriminate.
Defined.

(** ** [_set_node_translation]: what it changes and when it fails *)

Lemma set_node_translation_Some location h w w' :
  set_node_translation location h w = Some w' →
  ∃ n p pg cg,
    nodes w !! h = Some n ∧ node_parent n = Some p
    ∧ EvaluateGlobalTransform w p = Some pg ∧ EvaluateGlobalTransform w h = Some cg
    ∧ w' = LclTranslation_Set h
             (GetT (Inverse pg *m SetT amatrix_identity location *m Inverse cg
                    *m pg *m SetT amatrix_identity (LclTranslation n))) w.
Proof.
  unfold set_node_translation. intros Hrun.
  destruct (EvaluateGlobalTransform w h) as [cg|] eqn:Hcg;
    cbn [mbind option_bind] in Hrun; [|discriminate Hrun].
  destruct (nodes w !! h) as [n|] eqn:Hn;
    cbn [mbind option_bind] in Hrun; [|discriminate Hrun].
  destruct (node_parent n) as [p|] eqn:Hp;
    cbn [mbind option_bind] in Hrun; [|discriminate Hrun].
  destruct (EvaluateGlobalTransform w p) as [pg|] eqn:Hpg;
    cbn [mbind option_bind] in Hrun; [|discriminate Hrun].
  exists n, p, pg, cg.
  split; [reflexivity|]. split; [exact Hp|]. split; [exact Hpg|]. split; [reflexivity|].
  symmetry. exact (Some_inj _ _ Hrun).
Qed.

Lemma EvaluateGlobalTransform_LclTranslation_Set_older w h t k :
  wf_nodes (nodes w) → (k < h)%nat → (h < length (nodes w))%nat →
  EvaluateGlobalTransform (LclTranslation_Set h t w) k = EvaluateGlobalTransform w k.
Proof.
  intros Hwf Hk Hh. symmetry. apply EvaluateGlobalTransform_ext; [done|lia| |].
  - unfold LclTranslation_Set, set_nodes. simpl. rewrite length_alter. lia.
  - intros j Hj. unfold LclTranslation_Set, set_nodes. simpl.
    by rewrite list_lookup_alter_ne by lia.
Qed.

Lemma EvaluateGlobalTransform_LclTranslation_Set_self w h t n p pg :
  wf_nodes (nodes w) → nodes w !! h = Some n → node_parent n = Some p →
  EvaluateGlobalTransform w p = Some pg →
  EvaluateGlobalTransform (LclTranslation_Set h t w) h = Some (pg *m AMatrix (LclLinear n) t).
Proof.
  intros Hwf Hn Hp Hpg.
  pose proof (Hwf h n p Hn Hp) as Hlt.
  pose proof (lookup_lt_Some _ _ _ Hn) as Hlen.
  assert (Hwf' : wf_nodes (nodes (LclTranslation_Set h t w))) by (by apply wf_nodes_alter).
  assert (Hn' : nodes (LclTranslation_Set h t w) !! h
                = Some (Node (node_name n) (node_parent n) t (LclLinear n) (node_attribute n))).
  { unfold LclTranslation_Set, set_nodes. simpl. by rewrite list_lookup_alter_eq, Hn. }
  rewrite (EvaluateGlobalTransform_unfold _ h _ Hwf' Hn'). simpl. rewrite Hp.
  by rewrite EvaluateGlobalTransform_LclTranslation_Set_older, Hpg by done.
Qed.

(** X9. The call changes the translation of the node and nothing else: the
    rotation and scale of the node's global transform are what they were,
    every other node is left as it was, older nodes (among them all the
    ancestors) keep their global transform, and poses and output are
    untouched. *)
Theorem set_node_translation_changes_translation_only location h w w' g :
  wf_nodes (nodes w) →
  set_node_translation location h w = Some w' →
  EvaluateGlobalTransform w h = Some g →
  (∃ g', EvaluateGlobalTransform w' h = Some g' ∧ lin g' = lin g)
  ∧ (∀ k, k ≠ h → nodes w' !! k = nodes w !! k)
  ∧ (∀ k, (k < h)%nat → EvaluateGlobalTransform w' k = EvaluateGlobalTransform w k)
  ∧ length (nodes w') = length (nodes w)
  ∧ poses w' = poses w ∧ stdout w' = stdout w.
Proof.
  intros Hwf Hrun Hg.
  apply set_node_translation_Some in Hrun as (n & p & pg & cg & Hn & Hp & Hpg & Hcg & ->).
  pose proof (lookup_lt_Some _ _ _ Hn) as Hlen.
  split_and!.
  - eexists. split; [by eapply EvaluateGlobalTransform_LclTranslation_Set_self|].
    rewrite (EvaluateGlobalTransform_unfold w h n Hwf Hn), Hp, Hpg in Hg.
    injection Hg as <-. done.
  - intros k Hk. unfold LclTranslation_Set, set_nodes. simpl.
    by rewrite list_lookup_alter_ne.
  - intros k Hk. by apply EvaluateGlobalTransform_LclTranslation_Set_older.
  - unfold LclTranslation_Set, set_nodes. simpl. apply length_alter.
  - done.
  - done.
Qed.

(** X10. On a scene whose parents are older than their children the call
    fails for exactly the nodes that have no parent (the scene root, a node
    not yet attached) and for handles that are not in the scene. *)
Theorem set_node_translation_raises location h w :
  wf_nodes (nodes w) →
  set_node_translation location h w = None
  ↔ ∀ n, nodes w !! h = Some n → node_parent n = None.
Proof.
  intros Hwf. split.
  - intros Hnone n Hn. destruct (node_parent n) as [p|] eqn:Hp; [|done].
    destruct (set_node_translation_eq location h w n p Hwf Hn Hp)
      as (? & ? & _ & _ & _ & Hset). congruence.
  - intros Hroot. destruct (set_node_translation location h w) as [w'|] eqn:Hrun; [|done].
    apply set_node_translation_Some in Hrun as (n & p & _ & _ & Hn & Hp & _).
    rewrite (Hroot n Hn) in Hp. discriminate Hp.
Qed.


(** ** [_extend_skeleton]: the finished skeleton *)

Lemma EvaluateGlobalTransform_app w1 w2 new h :
  wf_nodes (nodes w1) → nodes w2 = nodes w1 ++ new → (h < length (nodes w1))%nat →
  EvaluateGlobalTransform w2 h = EvaluateGlobalTransform w1 h.
Proof.
  intros Hwf Hnodes Hh. symmetry. apply EvaluateGlobalTransform_ext; [done..| |].
  - rewrite Hnodes, length_app. lia.
  - intros j Hj. rewrite Hnodes. by rewrite lookup_app_l by lia.
Qed.








Lemma extend_children_parents positions node cs :
  Forall (λ t, ∀ parent w m w',
            wf_nodes (nodes w) → (parent < length (nodes w))%nat →
            extend_skeleton parent t positions w = Some (m, w') →
            node_parent <$> drop (length (nodes w)) (nodes w')
            = Some <$> bone_parents parent (length (nodes w)) t) cs →
  ∀ m0 w m w',
    wf_nodes (nodes w) → (node < length (nodes w))%nat → map_names_ok m0 w →
    extend_children (λ child w, extend_skeleton node child positions w) cs m0 w = Some (m, w') →
    node_parent <$> drop (length (nodes w)) (nodes w')
    = Some <$> children_parents (bone_parents node) cs (length (nodes w)).
Proof.
  induction 1 as [|c cs Hc _ IH]; intros m0 w m w' Hwf Hnode Hm0 Hrun; simpl in *.
  - injection Hrun as <- <-. by rewrite drop_all.
  - destruct (extend_skeleton_extended positions c node w Hwf Hnode)
      as (mc & w1 & Hrun1 & Hext1).
    rewrite Hrun1 in Hrun.
    pose proof (Hc node w mc w1 Hwf Hnode Hrun1) as Hp1.
    destruct Hext1 as (new1 & Hn1 & Hnames1 & _ & Hwf1 & _ & _ & _ & Hmap1).
    assert (Hm1 : map_names_ok (mc ∪ m0) w1).
    { intros name h Hlook. apply lookup_union_Some_raw in Hlook as [Hlook|[_ Hlook]].
      - by apply Hmap1.
      - by eapply (map_names_ok_app m0 w w1). }
    assert (Hnode1 : (node < length (nodes w1))%nat) by (rewrite Hn1, length_app; lia).
    pose proof (IH (mc ∪ m0) w1 m w' Hwf1 Hnode1 Hm1 Hrun) as Hp2.
    destruct (extend_children_extended positions node cs
                (extend_skeleton_children_ok positions cs) (mc ∪ m0) w1 Hwf1 Hnode1 Hm1)
      as (m' & w'' & Hrun' & new2 & Hn2 & _).
    rewrite Hrun in Hrun'. injection Hrun' as <- <-.
    assert (Hlen1 : length (nodes w1) = (length (nodes w) + length (preorder c))%nat)
      by (by rewrite Hn1, length_app, <-Hnames1, length_fmap).
    rewrite Hn1, drop_app_length in Hp1.
    rewrite Hn2, drop_app_length in Hp2.
    rewrite Hn2, Hn1, <-app_assoc, drop_app_length.
    by rewrite !fmap_app, Hp1, Hp2, Hlen1.
Qed.

Lemma extend_skeleton_parents positions t :
  ∀ parent w m w',
    wf_nodes (nodes w) → (parent < length (nodes w))%nat →
    extend_skeleton parent t positions w = Some (m, w') →
    node_parent <$> drop (length (nodes w)) (nodes w')
    = Some <$> bone_parents parent (length (nodes w)) t.
Proof.
  induction t as [name children IH] using JointTree_forall_ind.
  intros parent w m w' Hwf Hparent Hrun. simpl in Hrun.
  destruct (add_bone_eq parent name positions w Hwf Hparent) as (t & Hadd & _).
  rewrite Hadd in Hrun.
  match type of Hadd with _ = Some (_, ?x) => set (w1 := x) in * end.
  assert (Hn1 : nodes w1 = nodes w ++ [new_bone parent name t]) by done.
  assert (Hwf1 : wf_nodes (nodes w1)).
  { rewrite Hn1. apply wf_nodes_snoc; [done|]. simpl. by intros p [= <-]. }
  assert (Hlen1 : length (nodes w1) = S (length (nodes w)))
    by (rewrite Hn1, length_app; simpl; lia).
  assert (Hm1 : map_names_ok (<[name := length (nodes w)]> ∅) w1).
  { intros k h Hk. apply lookup_insert_Some in Hk as [[<- <-]|[_ Hk]]; [|done].
    rewrite Hn1. by rewrite list_lookup_middle. }
  assert (Hnode1 : (length (nodes w) < length (nodes w1))%nat) by lia.
  pose proof (extend_children_parents positions _ children IH _ w1 m w'
                Hwf1 Hnode1 Hm1 Hrun) as Hp.
  destruct (extend_children_extended positions _ children
              (extend_skeleton_children_ok positions children) _ w1 Hwf1 Hnode1 Hm1)
    as (m' & w'' & Hrun' & new2 & Hn2 & _).
  rewrite Hrun in Hrun'. injection Hrun' as <- <-.
  rewrite Hn2, drop_app_length in Hp.
  rewrite Hn2, Hn1, <-app_assoc, drop_app_length.
  rewrite Hlen1 in Hp. cbn [app bone_parents]. rewrite !fmap_cons. by rewrite Hp.
Qed.

(** X13. The FBX hierarchy mirrors the joint tree: the root bone is a
    child of the node the skeleton is built under, and the bone of every
    other joint is a child of the bone of its parent joint. *)
Theorem skeleton_mirrors_joint_tree t positions parent w :
  wf_nodes (nodes w) → (parent < length (nodes w))%nat →
  ∃ m w',
    extend_skeleton parent t positions w = Some (m, w')
    ∧ node_name <$> drop (length (nodes w)) (nodes w') = preorder t
    ∧ node_parent <$> drop (length (nodes w)) (nodes w')
      = Some <$> bone_parents parent (length (nodes w)) t.
Proof.
  intros Hwf Hparent.
  destruct (extend_skeleton_extended positions t parent w Hwf Hparent)
    as (m & w' & Hrun & new & Hn & Hnames & _).
  exists m, w'. split; [done|]. split.
  - by rewrite Hn, drop_app_length.
  - by eapply extend_skeleton_parents.
Qed.

(** *** The node map *)

Lemma enter_bones_snoc m0 bones name h :
  enter_bones m0 (bones ++ [(name, h)]) = <[name := h]> (enter_bones m0 bones).
Proof. unfold enter_bones. by rewrite foldl_app. Qed.

Lemma enter_bones_app m0 l1 l2 :
  enter_bones m0 (l1 ++ l2) = enter_bones (enter_bones m0 l1) l2.
Proof. unfold enter_bones. by rewrite foldl_app. Qed.

Lemma enter_bones_union m0 bones : enter_bones m0 bones = enter_bones ∅ bones ∪ m0.
Proof.
  induction bones as [|[name h] bones IH] using rev_ind.
  - unfold enter_bones. simpl. by rewrite (left_id_L ∅ (∪)).
  - rewrite !enter_bones_snoc, IH. by rewrite insert_union_l.
Qed.

Lemma enter_bones_lookup_last bones : ∀ m0 i name h,
  bones !! i = Some (name, h) →
  (∀ j h', (i < j)%nat → bones !! j ≠ Some (name, h')) →
  enter_bones m0 bones !! name = Some h.
Proof.
  induction bones as [|[k v] bones IH] using rev_ind; intros m0 i name h Hi Hlast.
  - by rewrite lookup_nil in Hi.
  - rewrite enter_bones_snoc.
    apply lookup_app_Some in Hi as [Hi|[Hge Hi]].
    + assert (k ≠ name) as Hne.
      { intros ->. apply (Hlast (length bones) v).
        - by eapply lookup_lt_Some.
        - by rewrite list_lookup_middle. }
      rewrite lookup_insert_ne by done. apply (IH m0 i); [done|].
      intros j h' Hj Hlook. apply (Hlast j h' Hj). by apply lookup_app_l_Some.
    + destruct (i - length bones)%nat; simplify_eq/=. by rewrite lookup_insert_eq.
Qed.

Lemma enter_bones_lookup_None bones : ∀ m0 name,
  name ∉ bones.*1 → enter_bones m0 bones !! name = m0 !! name.
Proof.
  induction bones as [|[k v] bones IH] using rev_ind; intros m0 name Hnot; [done|].
  rewrite enter_bones_snoc. rewrite fmap_app, elem_of_app in Hnot. simpl in Hnot.
  rewrite lookup_insert_ne; [apply IH; tauto|].
  intros ->. apply Hnot. right. by left.
Qed.

Lemma zip_seq_app (l1 l2 : list string) base :
  zip (l1 ++ l2) (seq base (length (l1 ++ l2)))
  = zip l1 (seq base (length l1)) ++ zip l2 (seq (base + length l1) (length l2)).
Proof.
  rewrite length_app, seq_app. apply zip_with_app. by rewrite length_seq.
Qed.

Lemma extend_children_node_map positions node cs :
  Forall (λ t, ∀ parent w m w',
            wf_nodes (nodes w) → (parent < length (nodes w))%nat →
            extend_skeleton parent t positions w = Some (m, w') →
            m = enter_bones ∅ (zip (preorder t)
                                   (seq (length (nodes w)) (length (preorder t))))) cs →
  ∀ m0 w m w',
    wf_nodes (nodes w) → (node < length (nodes w))%nat → map_names_ok m0 w →
    extend_children (λ child w, extend_skeleton node child positions w) cs m0 w = Some (m, w') →
    m = enter_bones m0 (zip (concat (map preorder cs))
                            (seq (length (nodes w)) (length (concat (map preorder cs))))).
Proof.
  induction 1 as [|c cs Hc _ IH]; intros m0 w m w' Hwf Hnode Hm0 Hrun; simpl in *.
  - by injection Hrun as <- <-.
  - destruct (extend_skeleton_extended positions c node w Hwf Hnode)
      as (mc & w1 & Hrun1 & Hext1).
    rewrite Hrun1 in Hrun.
    pose proof (Hc node w mc w1 Hwf Hnode Hrun1) as Hmc.
    destruct Hext1 as (new1 & Hn1 & Hnames1 & _ & Hwf1 & _ & _ & _ & Hmap1).
    assert (Hm1 : map_names_ok (mc ∪ m0) w1).
    { intros name h Hlook. apply lookup_union_Some_raw in Hlook as [Hlook|[_ Hlook]].
      - by apply Hmap1.
      - by eapply (map_names_ok_app m0 w w1). }
    assert (Hnode1 : (node < length (nodes w1))%nat) by (rewrite Hn1, length_app; lia).
    pose proof (IH (mc ∪ m0) w1 m w' Hwf1 Hnode1 Hm1 Hrun) as Hm.
    assert (Hlen1 : length (nodes w1) = (length (nodes w) + length (preorder c))%nat)
      by (by rewrite Hn1, length_app, <-Hnames1, length_fmap).
    rewrite zip_seq_app, enter_bones_app, <-Hlen1.
    rewrite (enter_bones_union m0), <-Hmc. done.
Qed.

Lemma extend_skeleton_node_map positions t :
  ∀ parent w m w',
    wf_nodes (nodes w) → (parent < length (nodes w))%nat →
    extend_skeleton parent t positions w = Some (m, w') →
    m = enter_bones ∅ (zip (preorder t) (seq (length (nodes w)) (length (preorder t)))).
Proof.
  induction t as [name children IH] using JointTree_forall_ind.
  intros parent w m w' Hwf Hparent Hrun. simpl in Hrun.
  destruct (add_bone_eq parent name positions w Hwf Hparent) as (t & Hadd & _).
  rewrite Hadd in Hrun.
  match type of Hadd with _ = Some (_, ?x) => set (w1 := x) in * end.
  assert (Hn1 : nodes w1 = nodes w ++ [new_bone parent name t]) by done.
  assert (Hwf1 : wf_nodes (nodes w1)).
  { rewrite Hn1. apply wf_nodes_snoc; [done|]. simpl. by intros p [= <-]. }
  assert (Hlen1 : length (nodes w1) = S (length (nodes w)))
    by (rewrite Hn1, length_app; simpl; lia).
  assert (Hm1 : map_names_ok (<[name := length (nodes w)]> ∅) w1).
  { intros k h Hk. apply lookup_insert_Some in Hk as [[<- <-]|[_ Hk]]; [|done].
    rewrite Hn1. by rewrite list_lookup_middle. }
  assert (Hnode1 : (length (nodes w) < length (nodes w1))%nat) by lia.
  rewrite (extend_children_node_map positions _ children IH _ w1 m w'
             Hwf1 Hnode1 Hm1 Hrun).
  by rewrite Hlen1.
Qed.

(** X14. The node map is what entering the bones in creation order gives,
    a later bone replacing an earlier one of the same name: a joint name
    maps to the bone created last for it, a name that is not in the tree
    has no entry. *)
Theorem node_map_keeps_last_bone t positions parent w :
  wf_nodes (nodes w) → (parent < length (nodes w))%nat →
  ∃ m w',
    extend_skeleton parent t positions w = Some (m, w')
    ∧ m = enter_bones ∅ (zip (preorder t) (seq (length (nodes w)) (length (preorder t))))
    ∧ (∀ i name, preorder t !! i = Some name →
                 (∀ j, (i < j)%nat → preorder t !! j ≠ Some name) →
                 m !! name = Some (length (nodes w) + i)%nat)
    ∧ (∀ name, name ∉ preorder t → m !! name = None).
Proof.
  intros Hwf Hparent.
  destruct (extend_skeleton_extended positions t parent w Hwf Hparent) as (m & w' & Hrun & _).
  exists m, w'. split; [done|].
  pose proof (extend_skeleton_node_map positions t parent w m w' Hwf Hparent Hrun) as Hm.
  split; [done|]. split.
  - intros i name Hi Hlast. rewrite Hm.
    assert (Hlt : (i < length (preorder t))%nat) by (by eapply lookup_lt_Some).
    apply (enter_bones_lookup_last _ ∅ i).
    + apply lookup_zip_with_Some. exists name, (length (nodes w) + i)%nat.
      split; [done|]. split; [done|]. by apply lookup_seq_lt.
    + intros j h' Hj Hlook. apply lookup_zip_with_Some in Hlook as (x & y & [= <- <-] & Hx & _).
      by apply (Hlast j Hj).
  - intros name Hnot. rewrite Hm, enter_bones_lookup_None; [done|].
    rewrite fst_zip; [done|]. by rewrite length_seq.
Qed.

(** X15. Building the skeleton leaves the scene it is built in alone: the
    nodes that were there keep their fields and their global transforms, the
    poses are untouched, and the output is only added to. *)
Theorem skeleton_builder_keeps_scene t positions parent w :
  wf_nodes (nodes w) → (parent < length (nodes w))%nat →
  ∃ m w' lines,
    extend_skeleton parent t positions w = Some (m, w')
    ∧ (∀ h, (h < length (nodes w))%nat →
            nodes w' !! h = nodes w !! h
            ∧ EvaluateGlobalTransform w' h = EvaluateGlobalTransform w h)
    ∧ poses w' = poses w
    ∧ stdout w' = stdout w ++ lines.
Proof.
  intros Hwf Hparent.
  destruct (extend_skeleton_extended positions t parent w Hwf Hparent)
    as (m & w' & Hrun & new & Hn & _ & _ & _ & Hposes & Hout & _).
  exists m, w', (preorder t ≫= bone_lines positions). split; [done|].
  split; [|done]. intros h Hh. split.
  - rewrite Hn. by apply lookup_app_l.
  - by eapply EvaluateGlobalTransform_app.
Qed.

(** ** [_add_skin_and_bind_pose]: failure, frame and consistency *)

Lemma eval_global_alter (f : FbxNode → FbxNode) h ns :
  (∀ n, node_parent (f n) = node_parent n) →
  (∀ n, local_transform (f n) = local_transform n) →
  ∀ fuel k, eval_global fuel (alter f h ns) k = eval_global fuel ns k.
Proof.
  intros Hp Hl fuel. induction fuel as [|fuel IH]; intros k; [done|]. simpl.
  destruct (decide (h = k)) as [->|Hne].
  - rewrite list_lookup_alter_eq. destruct (ns !! k) as [n|]; [|done]. simpl.
    rewrite Hp, Hl. destruct (node_parent n); [|done]. by rewrite IH.
  - rewrite list_lookup_alter_ne by done. destruct (ns !! k) as [n|]; [|done].
    destruct (node_parent n); [|done]. by rewrite IH.
Qed.

Lemma EvaluateGlobalTransform_SetNodeAttribute w h a k p :
  EvaluateGlobalTransform (AddPose p (SetNodeAttribute h a w)) k = EvaluateGlobalTransform w k.
Proof.
  unfold EvaluateGlobalTransform, AddPose, SetNodeAttribute, set_nodes. simpl.
  rewrite length_alter. by apply eval_global_alter.
Qed.

(** X16. On a well-formed scene and a node map into it, the skin binder
    fails exactly when the mesh node carries no mesh. *)
Theorem add_skin_and_bind_pose_raises clusters (fbx_node_map : gmap string nat)
    fbx_mesh_node w mesh_node :
  wf_nodes (nodes w) →
  nodes w !! fbx_mesh_node = Some mesh_node →
  map_Forall (λ _ node, (node < length (nodes w))%nat) fbx_node_map →
  add_skin_and_bind_pose clusters fbx_node_map fbx_mesh_node w = None
  ↔ ∀ mesh, node_attribute mesh_node ≠ Some (AttrMesh mesh).
Proof.
  intros Hwf Hmesh Hvalid. split.
  - intros Hnone mesh Hattr.
    destruct (add_skin_and_bind_pose_eq clusters fbx_node_map fbx_mesh_node w
                mesh_node mesh Hwf Hmesh Hattr Hvalid) as (? & ? & _ & _ & Hrun).
    congruence.
  - intros Hno.
    destruct (EvaluateGlobalTransform_is_Some w fbx_mesh_node Hwf) as [mt Hmt];
      [by eapply lookup_lt_Some|].
    destruct (bind_joints_eq clusters w (map_to_list fbx_node_map)) with
      (skin := @nil FbxCluster) (bind_pose := [(fbx_mesh_node, mt)])
      as (ts & _ & Hbind).
    { intros [name node] Hin. apply elem_of_map_to_list in Hin. simpl.
      apply EvaluateGlobalTransform_is_Some; [done|]. by eapply Hvalid. }
    unfold add_skin_and_bind_pose. rewrite Hmt. simpl. rewrite Hbind. simpl.
    unfold AddDeformer. rewrite Hmesh. simpl.
    destruct (node_attribute mesh_node) as [[|mesh]|] eqn:Hattr; try done.
    by destruct (Hno mesh).
Qed.

Lemma cluster_transforms (bound : list (string * nat * ControlPointCluster))
    (ts : list FbxAMatrix) :
  length bound = length ts →
  (λ c, (cluster_link c, cluster_transform_link c)) <$> zip_with cluster_of bound ts
  = zip (bound.*1.*2) ts.
Proof.
  revert ts. induction bound as [|b bound IH]; intros [|t ts] Hlen; simplify_eq/=; [done|].
  f_equal. by apply IH.
Qed.

Lemma cluster_modes (bound : list (string * nat * ControlPointCluster))
    (ts : list FbxAMatrix) :
  Forall (λ c, cluster_link_mode c = eNormalize) (zip_with cluster_of bound ts).
Proof.
  revert ts. induction bound as [|b bound IH]; intros [|t ts]; simpl; constructor; auto.
Qed.

(** X17. Binding the skin moves nothing: every node keeps its name, its
    parent, its local translation and its global transform; the mesh keeps
    its control points and the deformers it had, the scene keeps the poses
    it had, and one skin and one pose are added. *)
Theorem skin_binder_keeps_scene clusters (fbx_node_map : gmap string nat)
    fbx_mesh_node w w' :
  add_skin_and_bind_pose clusters fbx_node_map fbx_mesh_node w = Some w' →
  (∀ h, EvaluateGlobalTransform w' h = EvaluateGlobalTransform w h)
  ∧ (∀ h, (λ n, (node_name n, node_parent n, LclTranslation n, LclLinear n))
            <$> nodes w' !! h
          = (λ n, (node_name n, node_parent n, LclTranslation n, LclLinear n))
            <$> nodes w !! h)
  ∧ (∀ h, h ≠ fbx_mesh_node → nodes w' !! h = nodes w !! h)
  ∧ (∃ skin, mesh_deformers_at w' fbx_mesh_node
             = mesh_deformers_at w fbx_mesh_node ++ [skin])
  ∧ (∃ p, poses w' = poses w ++ [p] ∧ pose_is_bind_pose p = true)
  ∧ stdout w' = stdout w.
Proof.
  unfold add_skin_and_bind_pose. intros Hrun.
  destruct (EvaluateGlobalTransform w fbx_mesh_node) as [mt|]; [|done].
  cbn [mbind option_bind] in Hrun.
  destruct (bind_joints _ _ _ _ _) as [[skin bind_pose]|]; [|done].
  cbn [mbind option_bind] in Hrun. unfold AddDeformer in Hrun.
  destruct (nodes w !! fbx_mesh_node) as [n|] eqn:Hn; [|done].
  cbn [mbind option_bind] in Hrun.
  destruct (node_attribute n) as [[|mesh]|] eqn:Hattr; try done.
  cbn [mbind option_bind] in Hrun. injection Hrun as <-.
  split_and!.
  - intros h. apply EvaluateGlobalTransform_SetNodeAttribute.
  - intros h. unfold AddPose, SetNodeAttribute, set_nodes. simpl.
    destruct (decide (fbx_mesh_node = h)) as [->|Hne].
    + rewrite list_lookup_alter_eq. by destruct (nodes w !! h).
    + by rewrite list_lookup_alter_ne.
  - intros h Hne. unfold AddPose, SetNodeAttribute, set_nodes. simpl.
    by rewrite list_lookup_alter_ne.
  - exists skin. erewrite mesh_deformers_at_set by done.
    unfold mesh_deformers_at. by rewrite Hn, Hattr.
  - by eexists.
  - done.
Qed.

(** X18. The skin and the bind pose agree: the bind pose lists the mesh node
    and then, cluster by cluster, the link node with the cluster's link
    matrix, and that matrix is the global transform of the link node in the
    finished scene; every cluster is in normalize mode. *)
Theorem skin_and_bind_pose_agree clusters (fbx_node_map : gmap string nat)
    fbx_mesh_node w mesh_node mesh :
  wf_nodes (nodes w) →
  nodes w !! fbx_mesh_node = Some mesh_node →
  node_attribute mesh_node = Some (AttrMesh mesh) →
  map_Forall (λ _ node, (node < length (nodes w))%nat) fbx_node_map →
  ∃ w' skin p mesh_transform,
    add_skin_and_bind_pose clusters fbx_node_map fbx_mesh_node w = Some w'
    ∧ mesh_deformers_at w' fbx_mesh_node = mesh_deformers mesh ++ [skin]
    ∧ poses w' = poses w ++ [p]
    ∧ pose_entries p
      = (fbx_mesh_node, mesh_transform)
        :: ((λ c, (cluster_link c, cluster_transform_link c)) <$> skin)
    ∧ EvaluateGlobalTransform w' fbx_mesh_node = Some mesh_transform
    ∧ Forall (λ c, EvaluateGlobalTransform w' (cluster_link c)
                   = Some (cluster_transform_link c)
                   ∧ cluster_link_mode c = eNormalize) skin.
Proof.
  intros Hwf Hmesh Hattr Hvalid.
  destruct (add_skin_and_bind_pose_eq clusters fbx_node_map fbx_mesh_node w
              mesh_node mesh Hwf Hmesh Hattr Hvalid) as (mt & ts & Hmt & Hts & Hrun).
  pose proof (Forall2_length _ _ _ Hts) as Hlen.
  eexists _, _, _, mt. split; [exact Hrun|].
  split; [by erewrite mesh_deformers_at_set|].
  split; [done|]. split; [simpl; by rewrite cluster_transforms|].
  split; [by rewrite EvaluateGlobalTransform_SetNodeAttribute|].
  apply Forall_and. split; [|apply cluster_modes].
  apply Forall_forall. intros c Hc.
  rewrite EvaluateGlobalTransform_SetNodeAttribute.
  apply list_elem_of_lookup in Hc as [i Hi].
  apply lookup_zip_with_Some in Hi as (b & t & -> & Hb & Ht).
  exact (Forall2_lookup_lr _ _ _ _ _ _ Hts Hb Ht).
Qed.

(** ** [construct_rig]: the finished rig *)





(** ** Instances of the further properties *)

Lemma set_node_translation_changes_translation_only_witness :
  ∃ w' g,
    set_node_translation (Vec3 Qc3 1 1) 3 example_scene = Some w'
    ∧ EvaluateGlobalTransform example_scene 3 = Some g
    ∧ (∃ g', EvaluateGlobalTransform w' 3 = Some g' ∧ lin g' = lin g)
    ∧ (∀ k, k ≠ 3%nat → nodes w' !! k = nodes example_scene !! k)
    ∧ (∀ k, (k < 3)%nat → EvaluateGlobalTransform w' k = EvaluateGlobalTransform example_scene k)
    ∧ length (nodes w') = length (nodes example_scene)
    ∧ poses w' = poses example_scene ∧ stdout w' = stdout example_scene.
Proof.
  assert (∃ w', set_node_translation (Vec3 Qc3 1 1) 3 example_scene = Some w')
    as (w' & Hrun) by (eexists; vm_compute; reflexivity).
  assert (∃ g, EvaluateGlobalTransform example_scene 3 = Some g)
    as (g & Hg) by (eexists; vm_compute; reflexivity).
  exists w', g. split; [exact Hrun|]. split; [exact Hg|].
  apply (set_node_translation_changes_translation_only (Vec3 Qc3 1 1) 3 example_scene w' g);
    [|exact Hrun|exact Hg].
  intros [|[|[|[|h]]]] n p; simpl; intros Hn Hp; simplify_eq/=; lia.
Defined.

Lemma set_node_translation_raises_witness :
  set_node_translation (Vec3 Qc3 1 1) 0 example_scene = None.
Proof.
  apply (set_node_translation_raises (Vec3 Qc3 1 1) 0 example_scene).
  - intros [|[|[|[|h]]]] n p; simpl; intros Hn Hp; simplify_eq/=; lia.
  - simpl. intros n [= <-]. reflexivity.
Defined.



Lemma skeleton_mirrors_joint_tree_witness :
  ∃ m w',
    extend_skeleton 0 example_tree example_positions (FbxScene_Create []) = Some (m, w')
    ∧ node_name <$> drop 1 (nodes w') = ["Root"; "Hand"; "Tip"; "Hand"]
    ∧ node_parent <$> drop 1 (nodes w') = [Some 0; Some 1; Some 2; Some 1]%nat.
Proof.
  apply (skeleton_mirrors_joint_tree example_tree example_positions 0 (FbxScene_Create [])).
  - intros [|h] n p; simpl; intros Hn Hp; simplify_eq/=.
  - simpl. lia.
Defined.

Lemma node_map_keeps_last_bone_witness :
  ∃ m w',
    extend_skeleton 0 example_tree example_positions (FbxScene_Create []) = Some (m, w')
    ∧ m !! "Hand" = Some 4%nat ∧ m !! "Tip" = Some 3%nat ∧ m !! "Foot" = None.
Proof.
  destruct (node_map_keeps_last_bone example_tree example_positions 0 (FbxScene_Create []))
    as (m & w' & Hrun & _ & Hlast & Hnone).
  - intros [|h] n p; simpl; intros Hn Hp; simplify_eq/=.
  - simpl. lia.
  - exists m, w'. split; [exact Hrun|]. split; [|split].
    + apply (Hlast 3%nat "Hand"); [reflexivity|].
      intros [|[|[|[|j]]]] Hj; simpl; try lia; discriminate.
    + apply (Hlast 2%nat "Tip"); [reflexivity|].
      intros [|[|[|[|j]]]] Hj; simpl; try lia; discriminate.
    + apply Hnone. simpl. rewrite !elem_of_cons, elem_of_nil.
      intros [H|[H|[H|[H|[]]]]]; discriminate H.
Defined.

Lemma skeleton_builder_keeps_scene_witness :
  ∃ m w' lines,
    extend_skeleton 2 example_tree example_positions example_scene = Some (m, w')
    ∧ (∀ h, (h < 4)%nat →
            nodes w' !! h = nodes example_scene !! h
            ∧ EvaluateGlobalTransform w' h = EvaluateGlobalTransform example_scene h)
    ∧ poses w' = poses example_scene
    ∧ stdout w' = stdout example_scene ++ lines.
Proof.
  apply (skeleton_builder_keeps_scene example_tree example_positions 2 example_scene).
  - intros [|[|[|[|h]]]] n p; simpl; intros Hn Hp; simplify_eq/=; lia.
  - simpl. lia.
Defined.

Lemma add_skin_and_bind_pose_raises_witness :
  add_skin_and_bind_pose example_clusters example_node_map 2 example_scene = None.
Proof.
  apply (add_skin_and_bind_pose_raises example_clusters example_node_map 2 example_scene
           (Node "Root" (Some 0%nat) (Vec3 1 0 0) mat3_id (Some AttrSkeleton_eLimbNode))).
  - intros [|[|[|[|h]]]] n p; simpl; intros Hn Hp; simplify_eq/=; lia.
  - reflexivity.
  - unfold example_node_map. repeat apply map_Forall_insert_2; simpl; try lia.
    apply map_Forall_empty.
  - intros mesh. discriminate.
Defined.

Lemma skin_binder_keeps_scene_witness :
  ∃ w',
    add_skin_and_bind_pose example_clusters example_node_map 1 example_scene = Some w'
    ∧ (∀ h, EvaluateGlobalTransform w' h = EvaluateGlobalTransform example_scene h)
    ∧ (∀ h, h ≠ 1%nat → nodes w' !! h = nodes example_scene !! h)
    ∧ (∃ p, poses w' = poses example_scene ++ [p] ∧ pose_is_bind_pose p = true)
    ∧ stdout w' = stdout example_scene.
Proof.
  assert (∃ w', add_skin_and_bind_pose example_clusters example_node_map 1 example_scene
                = Some w') as (w' & Hrun) by (eexists; vm_compute; reflexivity).
  destruct (skin_binder_keeps_scene example_clusters example_node_map 1 example_scene w' Hrun)
    as (Heval & _ & Hnodes & _ & Hposes & Hout).
  exists w'. split; [exact Hrun|]. split; [exact Heval|]. split; [exact Hnodes|].
  split; [exact Hposes | exact Hout].
Defined.

Lemma skin_and_bind_pose_agree_witness :
  ∃ w' skin p mesh_transform,
    add_skin_and_bind_pose example_clusters example_node_map 1 example_scene = Some w'
    ∧ mesh_deformers_at w' 1 = [] ++ [skin]
    ∧ poses w' = poses example_scene ++ [p]
    ∧ pose_entries p
      = (1%nat, mesh_transform)
        :: ((λ c, (cluster_link c, cluster_transform_link c)) <$> skin)
    ∧ EvaluateGlobalTransform w' 1 = Some mesh_transform
    ∧ Forall (λ c, EvaluateGlobalTransform w' (cluster_link c)
                   = Some (cluster_transform_link c)
                   ∧ cluster_link_mode c = eNormalize) skin.
Proof.
  apply (skin_and_bind_pose_agree example_clusters example_node_map 1 example_scene
           (Node "BodyLabs_body" (Some 0%nat) vzero mat3_id (Some (AttrMesh (Mesh [vzero] []))))
           (Mesh [vzero] [])).
  - intros [|[|[|[|h]]]] n p; simpl; intros Hn Hp; simplify_eq/=; lia.
  - reflexivity.
  - reflexivity.
  - unfold example_node_map. repeat apply map_Forall_insert_2; simpl; try lia.
    apply map_Forall_empty.
Defined.

(** ** [rig_assets.py]: serialising and reading back *)

Import RigAssetsJson.

Lemma JointTree_from_json_each (cs : list pyval) :
  (fix each (cs : list pyval) : option (list JointTree) :=
     match cs with
     | [] => Some []
     | c :: cs' =>
         match JointTree_from_json c, each cs' with
         | Some t, Some ts => Some (t :: ts)
         | _, _ => None
         end
     end) cs
  = mapM JointTree_from_json cs.
Proof.
  induction cs as [|c cs IH]; [done|]. rewrite IH. simpl.
  destruct (JointTree_from_json c); [|done]. simpl.
  by destruct (mapM JointTree_from_json cs).
Qed.

(** [JointTree.from_json] in the form of the source: the name, and the
    trees read from what iterating over the value under 'children' yields. *)
Lemma JointTree_from_json_eq (d : list (string * pyval)) :
  JointTree_from_json (PyDict d)
  = match py_getitem_with py_str "name" d, py_getitem_with py_iter_dicts "children" d with
    | Some name, Some cs =>
        match mapM JointTree_from_json cs with
        | Some children => Some (mkJointTree name children)
        | None => None
        end
    | _, _ => None
    end.
Proof.
  simpl. unfold py_getitem_with at 1.
  destruct (py_getitem "name" d) as [[| |name| |]|]; simpl; try done.
  assert (Hfind :
    (fix find (d : list (string * pyval)) : option (list JointTree) :=
       match d with
       | [] => None
       | (k, v) :: d' =>
           if String.eqb k "children"
           then match v with
                | PyList cs =>
                    (fix each (cs : list pyval) : option (list JointTree) :=
                       match cs with
                       | [] => Some []
                       | c :: cs' =>
                           match JointTree_from_json c, each cs' with
                           | Some t, Some ts => Some (t :: ts)
                           | _, _ => None
                           end
                       end) cs
                | PyStr s => if String.eqb s "" then Some [] else None
                | PyDict [] => Some []
                | _ => None
                end
           else find d'
       end) d
    = match py_getitem_with py_iter_dicts "children" d with
      | Some cs => mapM JointTree_from_json cs
      | None => None
      end).
  { unfold py_getitem_with. induction d as [|[k v] d IH]; [done|]. simpl.
    destruct (String.eqb k "children"); [|exact IH].
    destruct v as [| |s|cs|[|? ?]]; simpl; try done;
      first [by destruct (String.eqb s "") | apply JointTree_from_json_each]. }
  rewrite Hfind. destruct (py_getitem_with py_iter_dicts "children" d); [|done].
  done.
Qed.

Lemma JointTree_to_from_json (t : JointTree) :
  JointTree_from_json (JointTree_to_json t) = Some t.
Proof.
  induction t as [name children IH] using JointTree_forall_ind.
  cbn [JointTree_to_json]. rewrite JointTree_from_json_eq.
  unfold py_getitem_with. simpl.
  assert (mapM JointTree_from_json (map JointTree_to_json children) = Some children) as ->;
    [|done].
  apply mapM_Some. induction IH as [|c cs Hc _ IHcs]; simpl; constructor; done.
Qed.

(** X21. A joint tree written with [to_json] and read with [from_json] is
    the tree it was: same names, same children in the same order, at every
    depth. *)
Theorem JointTree_json_round_trip (t : JointTree) :
  JointTree_from_json (JointTree_to_json t) = Some t.
Proof. exact (JointTree_to_from_json t). Qed.

Lemma mapM_fmap_Some {A B} (f : A → option B) (g : B → A) (l : list B) :
  (∀ x, f (g x) = Some x) → mapM f (g <$> l) = Some l.
Proof.
  intros Hfg. apply mapM_Some. induction l as [|x l IH]; simpl; constructor; auto.
Qed.

Lemma ControlPointCluster_to_from_json (c : ControlPointCluster) :
  ControlPointCluster_from_json (ControlPointCluster_to_json c) = Some c.
Proof.
  unfold ControlPointCluster_from_json, ControlPointCluster_to_json.
  cbn [py_dict]. rewrite bool_decide_eq_true_2 by (repeat constructor; simpl; auto).
  unfold py_getitem_with, py_ints, py_numbers. cbn [py_getitem String.eqb Ascii.eqb Bool.eqb py_list].
  rewrite !mapM_fmap_Some by done. by destruct c.
Qed.

(** X22. A cluster written with [to_json] and read with [from_json] has
    the same indices and the same weights. *)
Theorem ControlPointCluster_json_round_trip (c : ControlPointCluster) :
  ControlPointCluster_from_json (ControlPointCluster_to_json c) = Some c.
Proof. exact (ControlPointCluster_to_from_json c). Qed.

Lemma chunks_concat {A} (n : nat) (rows : list (list A)) :
  Forall (λ r, length r = n) rows → chunks (length rows) n (concat rows) = rows.
Proof.
  induction 1 as [|r rows Hr _ IH]; [done|]. simpl.
  rewrite (take_app_length' r) by done. rewrite (drop_app_length' r) by done.
  by rewrite IH.
Qed.

Lemma length_concat_uniform {A} (n : nat) (rows : list (list A)) :
  Forall (λ r, length r = n) rows → length (concat rows) = (length rows * n)%nat.
Proof.
  induction 1 as [|r rows Hr _ IH]; [done|]. simpl. rewrite length_app, IH, Hr. lia.
Qed.

Lemma reshape_ravel {A} (n : nat) (rows : list (list A)) :
  n ≠ 0%nat → Forall (λ r, length r = n) rows → reshape n (ravel rows) = Some rows.
Proof.
  intros Hn Hrows. unfold reshape, ravel.
  rewrite (length_concat_uniform n rows Hrows).
  rewrite bool_decide_eq_true_2 by (by apply Nat.Div0.mod_mul).
  rewrite Nat.div_mul by done. by rewrite chunks_concat.
Qed.



Lemma TexturedMesh_to_from_json (tm : TexturedMesh) :
  Forall (λ r, length r = 4%nat) (faces tm) →
  Forall (λ r, length r = 4%nat) (uv_indices tm) →
  Forall (λ r, length r = 2%nat) (uv_values tm) →
  TexturedMesh_from_json (TexturedMesh_to_json tm) = Some tm.
Proof.
  intros Hf Hi Hv. unfold TexturedMesh_from_json, TexturedMesh_to_json.
  cbn [py_dict]. unfold py_getitem_with, py_array, py_ints, py_numbers.
  cbn [py_getitem String.eqb Ascii.eqb Bool.eqb py_list].
  rewrite !mapM_fmap_Some by done.
  rewrite !reshape_ravel by done. by destruct tm.
Qed.

(** X23. A textured mesh whose arrays have the shapes the class documents
    (four columns for the faces and the UV indices, two for the UV values)
    is read back from its JSON as it was. *)
Theorem TexturedMesh_json_round_trip (tm : TexturedMesh) :
  Forall (λ r, length r = 4%nat) (faces tm) →
  Forall (λ r, length r = 4%nat) (uv_indices tm) →
  Forall (λ r, length r = 2%nat) (uv_values tm) →
  TexturedMesh_from_json (TexturedMesh_to_json tm) = Some tm.
Proof. exact (TexturedMesh_to_from_json tm). Qed.

Lemma TexturedMesh_json_round_trip_witness :
  let tm := mkTexturedMesh [[0; 1; 2; 3]; [2; 3; 4; 5]]%Z [[0; 1; 2; 3]; [3; 2; 1; 0]]%Z
                           [[0; 0]; [1; 0]; [1; 1]; [0; 1]] in
  TexturedMesh_from_json (TexturedMesh_to_json tm) = Some tm.
Proof.
  intros tm. apply (TexturedMesh_json_round_trip tm); repeat constructor.
Defined.



Lemma clusters_json_round_trip (m : gmap string ControlPointCluster) :
  clusters_from_json
    (PyDict ((λ kv, (kv.1, ControlPointCluster_to_json kv.2)) <$> map_to_list m))
  = Some (map_to_list m).
Proof.
  unfold clusters_from_json. cbn [py_dict]. apply mapM_Some.
  induction (map_to_list m) as [|[k c] l IH]; simpl; constructor; [|done].
  unfold cluster_item_from_json. cbn [fst snd].
  pose proof (ControlPointCluster_to_from_json c) as Hc.
  destruct (ControlPointCluster_from_json (ControlPointCluster_to_json c)); congruence.
Qed.

(** X25. Rig assets written with [to_json] and read with [from_json] are
    the assets they were: the mesh arrays, the joint tree, the joint
    position spec and the cluster of every joint. *)
Theorem RigAssets_json_round_trip (assets : RigAssets) :
  Forall (λ r, length r = 4%nat) (faces (textured_mesh assets)) →
  Forall (λ r, length r = 4%nat) (uv_indices (textured_mesh assets)) →
  Forall (λ r, length r = 2%nat) (uv_values (textured_mesh assets)) →
  RigAssets_from_json (RigAssets_to_json assets) = Some assets.
Proof.
  intros Hf Hi Hv. unfold RigAssets_from_json, RigAssets_to_json.
  cbn [py_dict]. unfold py_getitem_with.
  cbn [py_getitem String.eqb Ascii.eqb Bool.eqb].
  rewrite TexturedMesh_to_from_json by done.
  rewrite JointTree_to_from_json, clusters_json_round_trip.
  rewrite list_to_map_to_list. by destruct assets.
Qed.

Lemma RigAssets_json_round_trip_witness :
  let assets :=
    mkRigAssets
      (mkTexturedMesh [[0; 1; 2; 3]]%Z [[0; 1; 2; 3]]%Z [[0; 0]; [1; 0]; [1; 1]; [0; 1]])
      example_tree
      (PyDict [("Root", PyDict [("reference_vertices", PyList [PyInt 0])])])
      example_clusters in
  RigAssets_from_json (RigAssets_to_json assets) = Some assets.
Proof.
  intros assets. apply (RigAssets_json_round_trip assets); repeat constructor.
Defined.

(** ** The joint inside the bounding box, for any number of reference vertices *)






(** ** The offsets of the bones in the finished rig *)




